(** * Icon Preview: the icon-theme generation pipeline of [src/extension.ts]

    A shallow embedding of the extension's TypeScript source and the
    properties of it that can be stated over that embedding.

    Conventions.
    - A JavaScript string is a [string]; one [ascii] stands for one code unit.
    - A plain JavaScript object used as a dictionary is an [Obj]: the list of
      its own properties in insertion order.  (JavaScript enumerates keys
      that are array indices first; icon identifiers start with [img_] and
      are never such keys.)
    - A numeric setting is a [Z].
    - The host (Node's [path] and [fs], [sharp], the editor API) is a record
      of functions, [Host]; the pipeline is written against it and every
      general theorem holds for all hosts.  A small POSIX host is defined at
      the end of the definitions to run the code on concrete workspaces. *)

From stdpp Require Import gmap strings list.
From Stdlib Require Import ZArith Ascii String Permutation.

Open Scope string_scope.

(** ** Strings *)

(** The character class [[a-zA-Z0-9]]. *)
Definition is_alnum (c : ascii) : bool :=
  let n := N_of_ascii c in
  ((48 <=? n) && (n <=? 57) || (65 <=? n) && (n <=? 90)
   || (97 <=? n) && (n <=? 122))%N.

(** [s.replace(/[^a-zA-Z0-9]/g, '_')] *)
Fixpoint replace_non_alnum (s : string) : string :=
  match s with
  | EmptyString => EmptyString
  | String c s' =>
      String (if is_alnum c then c else "_"%char) (replace_non_alnum s')
  end.

(** [s.replace(/\\/g, '/')] *)
Fixpoint replace_backslashes (s : string) : string :=
  match s with
  | EmptyString => EmptyString
  | String c s' =>
      String (if Ascii.eqb c "\"%char then "/"%char else c)
             (replace_backslashes s')
  end.

(** [s.slice(1)] *)
Definition slice1 (s : string) : string :=
  match s with
  | EmptyString => EmptyString
  | String _ s' => s'
  end.

(** [xs.join(',')] *)
Fixpoint join_comma (xs : list string) : string :=
  match xs with
  | [] => EmptyString
  | [x] => x
  | x :: xs' => x +:+ "," +:+ join_comma xs'
  end.

(** [xs.includes(x)] on an array of strings. *)
Definition includes (xs : list string) (x : string) : bool :=
  existsb (String.eqb x) xs.

(** [generateIconId], extension.ts lines 78-82. *)
Definition generateIconId (filePath : string) : string :=
  let normalized := replace_non_alnum filePath in
  "img_" +:+ normalized.

(** ** Plain objects as dictionaries *)

Section Obj.
Context {V : Type}.

(** Own properties, oldest first. *)
Definition Obj := list (string * V).

(** Own-property lookup. *)
Fixpoint obj_get (k : string) (o : Obj) : option V :=
  match o with
  | [] => None
  | (k', v) :: o' => if String.eqb k k' then Some v else obj_get k o'
  end.

(** Defining property [k]: an existing key keeps its position and takes
    the new value, a new key goes last. *)
Fixpoint obj_define (k : string) (v : V) (o : Obj) : Obj :=
  match o with
  | [] => [(k, v)]
  | (k', v') :: o' =>
      if String.eqb k k' then (k', v) :: o' else (k', v') :: obj_define k v o'
  end.

Definition obj_keys (o : Obj) : list string := o.*1.

(** [{ ...base, ...o }]: the spread copies the own properties of [o] in
    order onto [base]. *)
Definition obj_spread (base o : Obj) : Obj :=
  fold_left (fun acc kv => obj_define kv.1 kv.2 acc) o base.
End Obj.
Arguments Obj : clear implicits.

(** Property names every plain object inherits from [Object.prototype]. *)
Definition object_prototype_keys : list string :=
  [ "constructor"; "hasOwnProperty"; "isPrototypeOf"; "propertyIsEnumerable";
    "toLocaleString"; "toString"; "valueOf"; "__proto__";
    "__defineGetter__"; "__defineSetter__"; "__lookupGetter__";
    "__lookupSetter__" ].

(** [o[k] = v]: assigning to [__proto__] reaches the inherited accessor and
    adds no own property; any other key is defined. *)
Definition obj_set {V} (k : string) (v : V) (o : Obj V) : Obj V :=
  if String.eqb k "__proto__" then o else obj_define k v o.

(** [!o[k]] for an object holding strings: own values are truthy when they
    are not empty, inherited members are functions or objects. *)
Definition obj_missing (k : string) (o : Obj string) : bool :=
  match obj_get k o with
  | Some v => String.eqb v EmptyString
  | None => negb (includes object_prototype_keys k)
  end.

(** ** Configuration

    The settings under [tlcsdm.iconpreview]; a field is [None] when the
    setting is not present in the store. *)
Record Config := {
  cfg_autoActivate : option bool;
  cfg_supportedExtensions : option (list string);
  cfg_iconSize : option Z;
}.

(** [config.get(key, defaultValue)] *)
Definition config_get {A} (stored : option A) (defaultValue : A) : A :=
  match stored with
  | Some v => v
  | None => defaultValue
  end.

(** extension.ts lines 19-22. *)
Definition getSupportedExtensions (cfg : Config) : list string :=
  config_get (cfg_supportedExtensions cfg)
    ["png"; "jpg"; "jpeg"; "gif"; "bmp"; "ico"; "svg"; "webp"].

(** extension.ts lines 27-30. *)
Definition getIconSize (cfg : Config) : Z :=
  config_get (cfg_iconSize cfg) 16%Z.

(** extension.ts lines 35-38. *)
Definition isAutoActivateEnabled (cfg : Config) : bool :=
  config_get (cfg_autoActivate cfg) true.

Definition default_config : Config :=
  {| cfg_autoActivate := None; cfg_supportedExtensions := None;
     cfg_iconSize := None |}.

(** ** The host *)

(** What a path of the file system holds. *)
Inductive Node :=
| File (content : string)
| Dir.

#[global] Instance Node_eq_dec : EqDecision Node.
Proof. solve_decision. Defined.

Abbreviation FS := (gmap string Node).

(** The icon theme document.  [to_json] below gives the object literal of
    extension.ts lines 137-155. *)
Record IconDef := { iconPath : string }.

Record IconTheme := {
  iconDefinitions : Obj IconDef;
  theme_file : string;
  theme_folder : string;
  theme_folderExpanded : string;
  fileExtensions : Obj string;
  fileNames : Obj string;
}.

(** JavaScript values that reach [JSON.stringify]. *)
#[warnings="-register-all"]
Inductive JSON :=
| JString (s : string)
| JObject (members : list (string * JSON)).

Definition json_of_def (d : IconDef) : JSON :=
  JObject [("iconPath", JString (iconPath d))].

Definition json_of_defs (o : Obj IconDef) : JSON :=
  JObject (map (fun kv => (kv.1, json_of_def kv.2)) o).

Definition json_of_strings (o : Obj string) : JSON :=
  JObject (map (fun kv => (kv.1, JString kv.2)) o).

Definition to_json (t : IconTheme) : JSON :=
  JObject
    [ ("iconDefinitions", json_of_defs (iconDefinitions t));
      ("file", JString (theme_file t));
      ("folder", JString (theme_folder t));
      ("folderExpanded", JString (theme_folderExpanded t));
      ("fileExtensions", json_of_strings (fileExtensions t));
      ("fileNames", json_of_strings (fileNames t)) ].

(** How a [sharp(...).toFile(out)] call ends: the promise resolves and [out]
    holds the PNG, or it rejects, leaving [out] alone or with some residue. *)
Inductive SharpOutcome :=
| Rendered (png : string)
| Rejected (residue : option string).

(** How [fs.writeFileSync(p, data)] ends: it returns, or it throws because
    the file could not be opened, or it throws after the file was opened
    (and truncated) and only the first [n] characters were written. *)
Inductive WriteOutcome :=
| Written
| OpenFailed
| Interrupted (n : nat).

Record Host := {
  (* Node's path module *)
  path_join : string → string → string;
  path_basename : string → string;
  path_extname : string → string;
  path_dirname : string → string;
  path_relative : string → string → string;
  (* String.prototype.toLowerCase *)
  toLowerCase : string → string;
  (* vscode.workspace.findFiles(include, exclude); None when it rejects *)
  findFiles : FS → string → string → option (list string);
  (* the file watcher's matching of a path against its glob *)
  glob_matches : string → string → bool;
  (* sharp(input).resize(size, size, contain, transparent).png().toFile(out) *)
  sharp_resize_toFile : option Node → Z → string → SharpOutcome;
  (* sharp({create: size x size, r g b}).png().toFile(out) *)
  sharp_create_toFile : Z → Z * Z * Z → string → SharpOutcome;
  JSON_stringify : JSON → string;
  writeFileSync_outcome : FS → string → string → WriteOutcome;
  mkdirSync_succeeds : FS → string → bool;
}.

(** Calls made to the host; [RenameSync] and [UnlinkSync] are part of the
    [fs] interface although the extension never calls them. *)
Inductive Call :=
| FindFiles (include exclude : string)
| MkdirSync (p : string)
| SharpResizeToFile (input : string) (size : Z) (output : string)
| SharpCreateToFile (size : Z) (rgb : Z * Z * Z) (output : string)
| WriteFileSync (p : string) (data : string)
| RenameSync (oldPath newPath : string)
| UnlinkSync (p : string).

Record World := {
  fs : FS;
  calls : list Call;   (* oldest first *)
}.

Definition called (c : Call) (f : FS → FS) (w : World) : World :=
  {| fs := f (fs w); calls := calls w ++ [c] |}.

(** ** Computations that may throw *)

Inductive Completion (A : Type) :=
| Returned (a : A)
| Thrown (e : string).
Arguments Returned {A} a.
Arguments Thrown {A} e.

Definition M (A : Type) : Type := World → Completion A * World.

Definition ret {A} (a : A) : M A := fun w => (Returned a, w).

Definition bind {A B} (m : M A) (k : A → M B) : M B :=
  fun w =>
    match m w with
    | (Returned a, w') => k a w'
    | (Thrown e, w') => (Thrown e, w')
    end.

Notation "'let*' x ':=' m 'in' k" := (bind m (fun x => k))
  (at level 10, x pattern, m at level 100, k at level 200, only parsing).

(** [for (const x of xs) body], the loop variables threaded as [s]. *)
Fixpoint for_of {A S} (xs : list A) (body : A → S → M S) (s : S) : M S :=
  match xs with
  | [] => ret s
  | x :: xs' => let* s' := body x s in for_of xs' body s'
  end.

(** ** File-system primitives *)

Section Primitives.
Context (h : Host).

Definition existsSync (p : string) : M bool :=
  fun w => (Returned (bool_decide (is_Some (fs w !! p))), w).

(** [fs.mkdirSync(p, { recursive: true })] *)
Definition mkdirSync (p : string) : M unit :=
  fun w =>
    if mkdirSync_succeeds h (fs w) p
    then (Returned (), called (MkdirSync p) (insert p Dir) w)
    else (Thrown "mkdirSync", called (MkdirSync p) id w).

Definition write_effect (p data : string) (o : WriteOutcome) (d : FS) : FS :=
  match o with
  | Written => <[p := File data]> d
  | OpenFailed => d
  | Interrupted n => <[p := File (substring 0 n data)]> d
  end.

Definition writeFileSync (p data : string) : M unit :=
  fun w =>
    let o := writeFileSync_outcome h (fs w) p data in
    let w' := called (WriteFileSync p data) (write_effect p data o) w in
    match o with
    | Written => (Returned (), w')
    | _ => (Thrown "writeFileSync", w')
    end.

Definition sharp_effect (out : string) (o : SharpOutcome) (d : FS) : FS :=
  match o with
  | Rendered png => <[out := File png]> d
  | Rejected (Some residue) => <[out := File residue]> d
  | Rejected None => d
  end.

Definition resolved (o : SharpOutcome) : bool :=
  match o with
  | Rendered _ => true
  | Rejected _ => false
  end.
End Primitives.

(** ** The regeneration pipeline *)

(** The module variables [outputIconsDir] and [iconThemePath]. *)
Record Paths := {
  outputIconsDir : string;
  iconThemePath : string;
}.

(** Their assignment in [activate], extension.ts lines 254-255. *)
Definition activate_paths (h : Host) (extensionPath : string) : Paths :=
  let outputIconsDir := path_join h (path_join h extensionPath "out") "icons" in
  {| outputIconsDir := outputIconsDir;
     iconThemePath := path_join h outputIconsDir "iconpreview-icon-theme.json" |}.

Definition exclude_pattern : string := "**/node_modules/**".

(** [`**/*.{${extensions.join(',')}}`] *)
Definition glob_of_extensions (extensions : list string) : string :=
  "**/*.{" +:+ join_comma extensions +:+ "}".

Section Pipeline.
Context (h : Host) (cfg : Config) (paths : Paths).

(** [findImageFiles], extension.ts lines 43-52: a rejected search is an
    empty result. *)
Definition findImageFiles : M (list string) :=
  fun w =>
    let extensions := getSupportedExtensions cfg in
    let pattern := glob_of_extensions extensions in
    let w' := called (FindFiles pattern exclude_pattern) id w in
    match findFiles h (fs w) pattern exclude_pattern with
    | Some uris => (Returned uris, w')
    | None => (Returned [], w')
    end.

(** [generateThumbnail], extension.ts lines 57-73: a rejected render is
    caught and reported as [false]. *)
Definition generateThumbnail (imagePath outputPath : string) : M bool :=
  fun w =>
    let iconSize := getIconSize cfg in
    let o := sharp_resize_toFile h (fs w !! imagePath) iconSize outputPath in
    (Returned (resolved o),
     called (SharpResizeToFile imagePath iconSize outputPath)
            (sharp_effect outputPath o) w).

Definition thumbnailPath_of (iconId : string) : string :=
  path_join h (outputIconsDir paths) (iconId +:+ ".png").

Definition relativePath_of (thumbnailPath : string) : string :=
  replace_backslashes
    (path_relative h (path_dirname h (iconThemePath paths)) thumbnailPath).

(** The extension the loop tests, line 104. *)
Definition ext_of (filePath : string) : string :=
  slice1 (toLowerCase h (path_extname h filePath)).

(** One iteration of the loop of extension.ts lines 101-127, on the two
    objects it fills. *)
Definition processImage (supportedExtensions : list string)
    (filePath : string) (acc : Obj IconDef * Obj string)
  : M (Obj IconDef * Obj string) :=
  let fileName := path_basename h filePath in
  let ext := ext_of filePath in
  if negb (includes supportedExtensions ext) then ret acc
  else
    let iconId := generateIconId filePath in
    let thumbnailPath := thumbnailPath_of iconId in
    let* success := generateThumbnail filePath thumbnailPath in
    if success : bool then
      let relativePath := relativePath_of thumbnailPath in
      ret (obj_set iconId {| iconPath := relativePath |} acc.1,
           obj_set fileName iconId acc.2)
    else ret acc.

(** Lines 130-134. *)
Definition default_fileExtensions (supportedExtensions : list string)
  : Obj string :=
  fold_left
    (fun fileExtensions ext =>
       if obj_missing ext fileExtensions
       then obj_set ext "_file" fileExtensions
       else fileExtensions)
    supportedExtensions [].

Definition default_iconDefinitions : Obj IconDef :=
  [ ("_file", {| iconPath := "./default-file.png" |});
    ("_folder", {| iconPath := "./default-folder.png" |});
    ("_folder_open", {| iconPath := "./default-folder-open.png" |}) ].

Definition ensureOutputDir : M unit :=
  let* present := existsSync (outputIconsDir paths) in
  if present : bool then ret () else mkdirSync h (outputIconsDir paths).

(** The loop of lines 96-127, from the two empty objects. *)
Definition processImages (supportedExtensions imageFiles : list string)
  : M (Obj IconDef * Obj string) :=
  for_of imageFiles (processImage supportedExtensions) ([], []).

(** The object literal of lines 137-155, from the two objects of the loop. *)
Definition theme_of (supportedExtensions : list string)
    (acc : Obj IconDef * Obj string) : IconTheme :=
  let fileExtensions := default_fileExtensions supportedExtensions in
  {| iconDefinitions := obj_spread default_iconDefinitions acc.1;
     theme_file := "_file";
     theme_folder := "_folder";
     theme_folderExpanded := "_folder_open";
     fileExtensions := fileExtensions;
     fileNames := acc.2 |}.

(** [generateIconTheme] up to the end of the loop, lines 88-127. *)
Definition collectIcons : M (Obj IconDef * Obj string) :=
  let* imageFiles := findImageFiles in
  let supportedExtensions := getSupportedExtensions cfg in
  let* _ := ensureOutputDir in
  processImages supportedExtensions imageFiles.

(** [generateIconTheme] up to the object literal, lines 88-155. *)
Definition assembleIconTheme : M IconTheme :=
  let* acc := collectIcons in
  ret (theme_of (getSupportedExtensions cfg) acc).

(** One block of [createDefaultIcons]: a rejected render is caught. *)
Definition createDefaultIcon (p : string) (rgb : Z * Z * Z) : M unit :=
  let* present := existsSync p in
  if present : bool then ret ()
  else
    fun w =>
      let iconSize := getIconSize cfg in
      let o := sharp_create_toFile h iconSize rgb p in
      (Returned (),
       called (SharpCreateToFile iconSize rgb p) (sharp_effect p o) w).

Definition defaultIconPath : string :=
  path_join h (outputIconsDir paths) "default-file.png".
Definition defaultFolderPath : string :=
  path_join h (outputIconsDir paths) "default-folder.png".
Definition defaultFolderOpenPath : string :=
  path_join h (outputIconsDir paths) "default-folder-open.png".

(** [createDefaultIcons], extension.ts lines 167-226. *)
Definition createDefaultIcons : M unit :=
  let* _ := createDefaultIcon defaultIconPath (180, 180, 180)%Z in
  let* _ := createDefaultIcon defaultFolderPath (220, 180, 80)%Z in
  createDefaultIcon defaultFolderOpenPath (240, 200, 100)%Z.

(** Lines 157-158. *)
Definition persist (iconTheme : IconTheme) : M unit :=
  writeFileSync h (iconThemePath paths) (JSON_stringify h (to_json iconTheme)).

(** [generateIconTheme], extension.ts lines 87-162. *)
Definition generateIconTheme : M unit :=
  let* iconTheme := assembleIconTheme in
  let* _ := persist iconTheme in
  createDefaultIcons.
End Pipeline.

(** The other copy of the file in the repository keeps [generateIconId],
    [findImageFiles], [generateThumbnail] and the loop, and drops the default
    icons and [fileExtensions]. *)
Module Part000.
Record IconTheme := {
  iconDefinitions : Obj IconDef;
  fileNames : Obj string;
}.

Definition to_json (t : IconTheme) : JSON :=
  JObject
    [ ("iconDefinitions", json_of_defs (iconDefinitions t));
      ("fileNames", json_of_strings (fileNames t)) ].

Section Pipeline.
Context (h : Host) (cfg : Config) (paths : Paths).

Definition assembleIconTheme : M IconTheme :=
  let* acc := collectIcons h cfg paths in
  ret {| iconDefinitions := acc.1; fileNames := acc.2 |}.

Definition generateIconTheme : M unit :=
  let* iconTheme := assembleIconTheme in
  writeFileSync h (iconThemePath paths)
                (JSON_stringify h (to_json iconTheme)).
End Pipeline.
End Part000.

(** ** A POSIX host

    An executable host for normalised absolute POSIX paths.  [scan] lists
    the paths the workspace search visits, in the order it visits them, [decodable] the
    image decoder's verdict on a file's bytes, and [write] what becomes of a
    [writeFileSync] call. *)

Module Posix.
(** Text after the last [c] of [s], when [c] occurs. *)
Fixpoint after_last (c : ascii) (s : string) : option string :=
  match s with
  | EmptyString => None
  | String a s' =>
      match after_last c s' with
      | Some r => Some r
      | None => if Ascii.eqb a c then Some s' else None
      end
  end.

(** Text before the last [c] of [s], when [c] occurs. *)
Fixpoint before_last (c : ascii) (s : string) : option string :=
  match s with
  | EmptyString => None
  | String a s' =>
      match before_last c s' with
      | Some r => Some (String a r)
      | None => if Ascii.eqb a c then Some EmptyString else None
      end
  end.

Fixpoint contains (needle s : string) : bool :=
  String.prefix needle s ||
  match s with
  | EmptyString => false
  | String _ s' => contains needle s'
  end.

Fixpoint ends_with (suffix s : string) : bool :=
  String.eqb s suffix ||
  match s with
  | EmptyString => false
  | String _ s' => ends_with suffix s'
  end.

(** The pieces of [s] between commas. *)
Fixpoint split_comma (s : string) : list string :=
  match s with
  | EmptyString => [EmptyString]
  | String c s' =>
      if Ascii.eqb c ","%char then EmptyString :: split_comma s'
      else match split_comma s' with
           | x :: xs => String c x :: xs
           | [] => [String c EmptyString]
           end
  end.

Definition join (a b : string) : string := a +:+ "/" +:+ b.

Definition basename (p : string) : string :=
  match after_last "/"%char p with
  | Some r => r
  | None => p
  end.

Definition extname (p : string) : string :=
  let b := basename p in
  match b with
  | String "."%char _ =>
      match after_last "."%char (slice1 b) with
      | Some r => "." +:+ r
      | None => EmptyString
      end
  | _ =>
      match after_last "."%char b with
      | Some r => "." +:+ r
      | None => EmptyString
      end
  end.

Definition dirname (p : string) : string :=
  match before_last "/"%char p with
  | Some EmptyString => "/"
  | Some d => d
  | None => "."
  end.

(** [path.relative] for a target below [from]; other targets are returned
    as they are. *)
Definition relative (from to : string) : string :=
  let stem := from +:+ "/" in
  if String.prefix stem to
  then substring (String.length stem) (String.length to - String.length stem) to
  else to.

Definition lower (c : ascii) : ascii :=
  let n := N_of_ascii c in
  if ((65 <=? n) && (n <=? 90))%N then ascii_of_N (n + 32) else c.

Fixpoint toLowerCase (s : string) : string :=
  match s with
  | EmptyString => EmptyString
  | String c s' => String (lower c) (toLowerCase s')
  end.

(** The alternatives of a pattern [**/*.{a,b,...}]. *)
Definition alternatives (pattern : string) : list string :=
  let n := String.length pattern in
  if String.prefix "**/*.{" pattern && ends_with "}" pattern
  then split_comma (substring 6 (n - 7) pattern)
  else [].

Definition glob_matches (pattern p : string) : bool :=
  existsb (fun e => ends_with ("." +:+ e) (basename p)) (alternatives pattern).


Definition is_file (d : FS) (p : string) : bool :=
  match d !! p with
  | Some (File _) => true
  | _ => false
  end.

(** The search keeps the files visited that match [include] and lie under
    no [node_modules] directory, the one exclusion the extension asks for. *)
Definition findFiles (scan : FS → list string) (d : FS)
    (include exclude : string) : option (list string) :=
  Some (List.filter
          (fun p => is_file d p && glob_matches include p
                    && negb (contains "/node_modules/" p))
          (scan d)).

(** A file decodes when it starts with [IMG] and the size is positive;
    the thumbnail records the source bytes. *)
Definition thumbnail_of (content : string) (size : Z) : string :=
  "IMG thumbnail of " +:+ content.

Definition sharp_resize_toFile (input : option Node) (size : Z)
    (out : string) : SharpOutcome :=
  match input with
  | Some (File content) =>
      if String.prefix "IMG" content && (0 <? size)%Z
      then Rendered (thumbnail_of content size)
      else Rejected None
  | _ => Rejected None
  end.

Definition sharp_create_toFile (size : Z) (rgb : Z * Z * Z) (out : string)
  : SharpOutcome :=
  if (0 <? size)%Z then Rendered "IMG solid" else Rejected None.

Definition double_quote : ascii := ascii_of_N 34.

(** [JSON.stringify(v, null, 2)] for keys and strings that need no
    escaping beyond quotes and backslashes. *)
Fixpoint quote_body (s : string) : string :=
  match s with
  | EmptyString => EmptyString
  | String c s' =>
      if Ascii.eqb c double_quote || Ascii.eqb c "\"%char
      then String "\"%char (String c (quote_body s'))
      else String c (quote_body s')
  end.

Definition newline : string := String (ascii_of_N 10) EmptyString.

Definition quote (s : string) : string :=
  String double_quote (quote_body s) +:+ String double_quote EmptyString.

Fixpoint stringify (indent : string) (v : JSON) : string :=
  match v with
  | JString s => quote s
  | JObject [] => "{}"
  | JObject ((k0, v0) :: ms) =>
      let inner := indent +:+ "  " in
      let member k v := inner +:+ quote k +:+ ": " +:+ stringify inner v in
      "{" +:+ newline +:+ member k0 v0
      +:+ (fix rest (ms : list (string * JSON)) : string :=
             match ms with
             | [] => EmptyString
             | (k, v) :: ms' => "," +:+ newline +:+ member k v +:+ rest ms'
             end) ms
      +:+ newline +:+ indent +:+ "}"
  end.

Definition host (scan : FS → list string)
    (write : FS → string → string → WriteOutcome) : Host :=
  Build_Host join basename extname dirname relative toLowerCase
             (findFiles scan) glob_matches
             sharp_resize_toFile sharp_create_toFile
             (stringify EmptyString) write (fun _ _ => true).

(** A search that visits every path of the disk below the workspace
    folder [root]. *)
Definition scan_folder (root : string) (d : FS) : list string :=
  List.filter (String.prefix (root +:+ "/")) (map_to_list d).*1.

Definition always_written : FS → string → string → WriteOutcome :=
  fun _ _ _ => Written.
End Posix.

Definition world_of (d : FS) : World := {| fs := d; calls := [] |}.

Definition disk (files : list (string * Node)) : FS := list_to_map files.

(** ** The extension session: timers, watcher and commands

    Time is in milliseconds.  A call of [generateIconTheme] is asynchronous:
    it starts when it is called and settles at a later turn of the event
    loop, so a session records the calls started and how many of them have
    not settled yet. *)

Record Timer := {
  timer_id : nat;
  timer_due : N;
}.

Record Session := {
  clock : N;
  timers : list Timer;            (* timeouts the host still has to run *)
  next_timer : nat;
  regenerateTimer : option nat;   (* the module variable; None is undefined *)
  watchPattern : string;          (* the glob [fileWatcher] was created with *)
  config : Config;
  themeActivated : bool;
  started : list N;               (* clock at each generateIconTheme call *)
  running : nat;                  (* calls that have not settled *)
}.

Definition quiet_interval : N := 500.

Section Timers.
Definition with_timers (f : list Timer → list Timer) (s : Session) : Session :=
  {| clock := clock s; timers := f (timers s); next_timer := next_timer s;
     regenerateTimer := regenerateTimer s; watchPattern := watchPattern s;
     config := config s; themeActivated := themeActivated s;
     started := started s; running := running s |}.

Definition with_clock (t : N) (s : Session) : Session :=
  {| clock := t; timers := timers s; next_timer := next_timer s;
     regenerateTimer := regenerateTimer s; watchPattern := watchPattern s;
     config := config s; themeActivated := themeActivated s;
     started := started s; running := running s |}.

Definition with_config (c : Config) (s : Session) : Session :=
  {| clock := clock s; timers := timers s; next_timer := next_timer s;
     regenerateTimer := regenerateTimer s; watchPattern := watchPattern s;
     config := c; themeActivated := themeActivated s;
     started := started s; running := running s |}.

(** [clearTimeout(id)]: a timeout that already ran is not in the queue. *)
Definition clearTimeout (id : nat) (s : Session) : Session :=
  with_timers (List.filter (fun tm => negb (Nat.eqb (timer_id tm) id))) s.

(** [regenerateTimer = setTimeout(callback, delay)] *)
Definition setTimeout_regenerate (delay : N) (s : Session) : Session :=
  let id := next_timer s in
  {| clock := clock s;
     timers := timers s ++ [{| timer_id := id; timer_due := clock s + delay |}];
     next_timer := S id;
     regenerateTimer := Some id; watchPattern := watchPattern s;
     config := config s; themeActivated := themeActivated s;
     started := started s; running := running s |}.

(** [scheduleIconRegeneration], extension.ts lines 231-239. *)
Definition scheduleIconRegeneration (s : Session) : Session :=
  let s' := match regenerateTimer s with
            | Some id => clearTimeout id s
            | None => s
            end in
  setTimeout_regenerate quiet_interval s'.

(** A call [generateIconTheme()] starts a cycle at once. *)
Definition call_generateIconTheme (s : Session) : Session :=
  {| clock := clock s; timers := timers s; next_timer := next_timer s;
     regenerateTimer := regenerateTimer s; watchPattern := watchPattern s;
     config := config s; themeActivated := themeActivated s;
     started := started s ++ [clock s]; running := S (running s) |}.

(** A started cycle settles. *)
Definition settle (s : Session) : Session :=
  {| clock := clock s; timers := timers s; next_timer := next_timer s;
     regenerateTimer := regenerateTimer s; watchPattern := watchPattern s;
     config := config s; themeActivated := themeActivated s;
     started := started s; running := pred (running s) |}.

(** [activateIconTheme], lines 244-247. *)
Definition activateIconTheme (s : Session) : Session :=
  {| clock := clock s; timers := timers s; next_timer := next_timer s;
     regenerateTimer := regenerateTimer s; watchPattern := watchPattern s;
     config := config s; themeActivated := true;
     started := started s; running := running s |}.

(** The host runs a timeout at its due time: the callback of line 236. *)
Definition fire (tm : Timer) (s : Session) : Session :=
  call_generateIconTheme
    (with_clock (N.max (clock s) (timer_due tm))
       (with_timers
          (List.filter
             (fun tm' => negb (Nat.eqb (timer_id tm') (timer_id tm)))) s)).

(** Whether a timeout has run by the time [t] at which the next event is
    handled; [tie] says who goes first when both fall on the same
    millisecond. *)
Definition due_by (tie : bool) (t : N) (tm : Timer) : bool :=
  if tie then (timer_due tm <=? t)%N else (timer_due tm <? t)%N.

(** [dt] milliseconds pass. *)
Definition elapse (tie : bool) (dt : N) (s : Session) : Session :=
  let t := (clock s + dt)%N in
  with_clock t
    (fold_left (fun s tm => fire tm s)
               (List.filter (due_by tie t) (timers s)) s).
End Timers.

Inductive Event :=
| Elapse (dt : N)
| FileCreated (p : string)
| FileDeleted (p : string)
| FileChanged (p : string)
| ConfigurationChanged (tlcsdm_iconpreview : option Config)
| WorkspaceFoldersChanged
| RefreshCommand
| ActivateCommand
| Settled.

Section Session.
Context (h : Host).

(** [activate], extension.ts lines 252-312, once its initial cycle has
    settled: the watcher's glob is built from the extensions configured
    at that time. *)
Definition activate (cfg : Config) : Session :=
  let extensions := getSupportedExtensions cfg in
  let pattern := glob_of_extensions extensions in
  {| clock := 0; timers := []; next_timer := 0;
     regenerateTimer := None; watchPattern := pattern;
     config := cfg; themeActivated := isAutoActivateEnabled cfg;
     started := [0%N]; running := 0 |}.

(** The three watcher callbacks, lines 289-291. *)
Definition on_file_event (p : string) (s : Session) : Session :=
  if glob_matches h (watchPattern s) p
  then scheduleIconRegeneration s
  else s.

Definition handle (tie : bool) (e : Event) (s : Session) : Session :=
  match e with
  | Elapse dt => elapse tie dt s
  | FileCreated p | FileDeleted p | FileChanged p => on_file_event p s
  | ConfigurationChanged (Some cfg) =>
      scheduleIconRegeneration (with_config cfg s)
  | ConfigurationChanged None => s
  | WorkspaceFoldersChanged => scheduleIconRegeneration s
  | RefreshCommand => call_generateIconTheme s
  | ActivateCommand => activateIconTheme s
  | Settled => settle s
  end.

Definition run (tie : bool) (es : list Event) (s : Session) : Session :=
  fold_left (fun s e => handle tie e s) es s.

(** Events that reach [scheduleIconRegeneration]. *)
Definition notifies (s : Session) (e : Event) : bool :=
  match e with
  | FileCreated p | FileDeleted p | FileChanged p =>
      glob_matches h (watchPattern s) p
  | ConfigurationChanged (Some _) | WorkspaceFoldersChanged => true
  | _ => false
  end.

(** Notifications, each [d] milliseconds after the event before it. *)
Definition spaced (es : list (N * Event)) : list Event :=
  flat_map (fun de => [Elapse de.1; de.2]) es.
End Session.

(** ** Vocabulary of the properties *)

(** The path a call writes to. *)
Definition target (c : Call) : option string :=
  match c with
  | FindFiles _ _ => None
  | MkdirSync p => Some p
  | SharpResizeToFile _ _ output => Some output
  | SharpCreateToFile _ _ output => Some output
  | WriteFileSync p _ => Some p
  | RenameSync _ newPath => Some newPath
  | UnlinkSync p => Some p
  end.

(** [w'] comes after [w]: the calls made in between all satisfy [P], no
    path was lost, and every path whose node changed is the target of one
    of those calls. *)
Definition evolves (P : Call → Prop) (w w' : World) : Prop :=
  ∃ new,
    calls w' = (calls w ++ new)%list
    ∧ Forall P new
    ∧ (∀ p, is_Some (fs w !! p) → is_Some (fs w' !! p))
    ∧ (∀ p, fs w' !! p ≠ fs w !! p → ∃ c, c ∈ new ∧ target c = Some p).

(** [p] is a file of disk [d]. *)
Definition holds_file (d : FS) (p : string) : Prop :=
  ∃ content, d !! p = Some (File content).

(** A computation all of whose runs are related by [R]. *)
Definition stable {A} (R : World → World → Prop) (m : M A) : Prop :=
  ∀ w, R w (m w).2.

(** The files a cycle started on disk [d] discovers. *)
Definition discovered (h : Host) (cfg : Config) (d : FS) : list string :=
  match findFiles h d (glob_of_extensions (getSupportedExtensions cfg))
                  exclude_pattern with
  | Some uris => uris
  | None => []
  end.

Definition default_icon_paths (h : Host) (paths : Paths) : list string :=
  [ defaultIconPath h paths; defaultFolderPath h paths;
    defaultFolderOpenPath h paths ].

(** The calls a cycle over [imageFiles] may make; [defaults] says whether
    the cycle is one that creates the default icons. *)
Definition cycle_call (h : Host) (cfg : Config) (paths : Paths)
    (defaults : bool) (imageFiles : list string) (c : Call) : Prop :=
  match c with
  | FindFiles include exclude =>
      include = glob_of_extensions (getSupportedExtensions cfg)
      ∧ exclude = exclude_pattern
  | MkdirSync p => p = outputIconsDir paths
  | SharpResizeToFile input size output =>
      input ∈ imageFiles ∧ size = getIconSize cfg
      ∧ output = thumbnailPath_of h paths (generateIconId input)
  | SharpCreateToFile size _ output =>
      defaults = true ∧ size = getIconSize cfg
      ∧ output ∈ default_icon_paths h paths
  | WriteFileSync p _ => p = iconThemePath paths
  | RenameSync _ _ | UnlinkSync _ => False
  end.

(** The thumbnail paths of the files in [imageFiles]. *)
Definition thumbnail_paths (h : Host) (paths : Paths)
    (imageFiles : list string) : list string :=
  map (fun src => thumbnailPath_of h paths (generateIconId src)) imageFiles.

(** The paths a cycle over [imageFiles] may write. *)
Definition written_paths (h : Host) (paths : Paths)
    (imageFiles : list string) : list string :=
  outputIconsDir paths :: iconThemePath paths
  :: (thumbnail_paths h paths imageFiles ++ default_icon_paths h paths)%list.

(** Whether the loop keeps [src] when it renders it from disk [d]. *)
Definition rendered (h : Host) (cfg : Config) (paths : Paths) (d : FS)
    (src : string) : bool :=
  includes (getSupportedExtensions cfg) (ext_of h src)
  && resolved (sharp_resize_toFile h (d !! src) (getIconSize cfg)
                 (thumbnailPath_of h paths (generateIconId src))).

(** The definition the loop records under [iconId]. *)
Definition definition_of (h : Host) (paths : Paths) (iconId : string) : IconDef :=
  {| iconPath := relativePath_of h paths (thumbnailPath_of h paths iconId) |}.

(** What one iteration does to the two objects when the verdict on each
    file is given by [keep]. *)
Definition record_image (h : Host) (paths : Paths) (keep : string → bool)
    (acc : Obj IconDef * Obj string) (src : string)
  : Obj IconDef * Obj string :=
  if keep src
  then (obj_set (generateIconId src) (definition_of h paths (generateIconId src)) acc.1,
        obj_set (path_basename h src) (generateIconId src) acc.2)
  else acc.

(** The two objects of the loop agree with each other and with disk [d]:
    every name points at a definition, and every definition is the one of
    a file of [L] whose thumbnail is on the disk. *)
Definition consistent (h : Host) (paths : Paths) (L : list string)
    (acc : Obj IconDef * Obj string) (d : FS) : Prop :=
  (∀ name iconId,
     obj_get name acc.2 = Some iconId → is_Some (obj_get iconId acc.1))
  ∧ (∀ iconId def,
       obj_get iconId acc.1 = Some def →
       (∃ src, src ∈ L ∧ iconId = generateIconId src)
       ∧ def = definition_of h paths iconId
       ∧ holds_file d (thumbnailPath_of h paths iconId))
  ∧ NoDup (obj_keys acc.1).

(** The bytes a cycle started in [w] hands to [writeFileSync]. *)
Definition descriptor_of (h : Host) (cfg : Config) (paths : Paths) (w : World)
  : option string :=
  match assembleIconTheme h cfg paths w with
  | (Returned t, _) => Some (JSON_stringify h (to_json t))
  | (Thrown _, _) => None
  end.


(** *** Sessions *)

(** The queue holds at most one timeout; when it holds one, it is the one
    [regenerateTimer] names and it is not overdue. *)
Definition timers_tidy (s : Session) : Prop :=
  timers s = []
  ∨ ∃ id due,
      timers s = [{| timer_id := id; timer_due := due |}]
      ∧ regenerateTimer s = Some id
      ∧ (clock s ≤ due)%N.

(** The times at which notifications arrive, from time [t], given the gap
    before each. *)
Fixpoint arrivals (t : N) (gaps : list N) : list N :=
  match gaps with
  | [] => []
  | d :: ds => (t + d)%N :: arrivals (t + d)%N ds
  end.

Definition total (gaps : list N) : N := fold_right N.add 0%N gaps.

(** The call made when time reaches [t] with a timeout due at [due]. *)
Definition fires (tie : bool) (due t : N) : list N :=
  if (if tie then (due <=? t)%N else (due <? t)%N) then [due] else [].

(** The calls made while notifications arrive with the given gaps, the
    latest notification before them being at [t]. *)
Fixpoint fired (tie : bool) (t : N) (gaps : list N) : list N :=
  match gaps with
  | [] => []
  | d :: ds =>
      (fires tie (t + quiet_interval) (t + d) ++ fired tie (t + d) ds)%list
  end.

(** ** Example workspaces *)

Module Examples.
(** The POSIX host whose workspace folder is [/ws] and whose writes
    succeed, and the paths of an extension installed at [/ext]. *)
Definition host : Host :=
  Posix.host (Posix.scan_folder "/ws") Posix.always_written.

Definition paths : Paths := activate_paths host "/ext".

(** A configuration that only sets the icon size. *)
Definition with_iconSize (n : Z) : Config :=
  {| cfg_autoActivate := None; cfg_supportedExtensions := None;
     cfg_iconSize := Some n |}.

(** A configuration that only sets the extensions. *)
Definition with_extensions (exts : list string) : Config :=
  {| cfg_autoActivate := None; cfg_supportedExtensions := Some exts;
     cfg_iconSize := None |}.

(** One image in a workspace next to the extension. *)
Definition one_image : World :=
  world_of (disk [("/ws/a.png", File "IMG a")]).

(** An output directory that exists and holds nothing, no image. *)
Definition fresh : World :=
  world_of (disk [("/ext/out/icons", Dir)]).

(** Two images of the same base name in two directories. *)
Definition same_name : World :=
  world_of (disk [("/ws/dir1/x.png", File "IMG 1");
                  ("/ws/dir2/x.png", File "IMG 2")]).

(** Two images of different base names. *)
Definition two_names : World :=
  world_of (disk [("/ws/a.png", File "IMG a");
                  ("/ws/dir1/x.png", File "IMG 1")]).

(** A host whose search returns [order] whatever the disk. *)
Definition host_visiting (order : list string) : Host :=
  Posix.host (fun _ => order) Posix.always_written.




(** The extension's own directory opened as the workspace folder. *)
Definition host_in_extension : Host :=
  Posix.host (Posix.scan_folder "/ext") Posix.always_written.

Definition extension_workspace : World :=
  world_of (disk [("/ext/images/a.png", File "IMG a")]).
End Examples.

(** ** Further vocabulary *)

(** Whether [c] occurs in [s]. *)
Fixpoint mentions (c : ascii) (s : string) : bool :=
  match s with
  | EmptyString => false
  | String a s' => Ascii.eqb a c || mentions c s'
  end.

(** Two paths of the same length that agree wherever either has a
    character of [[a-zA-Z0-9]]. *)
Fixpoint alike (a b : string) : bool :=
  match a, b with
  | EmptyString, EmptyString => true
  | String x a', String y b' =>
      (Ascii.eqb x y || negb (is_alnum x) && negb (is_alnum y)) && alike a' b'
  | _, _ => false
  end.

(** Every character of [s] is of [[a-zA-Z0-9_]]. *)
Fixpoint identifier_chars (s : string) : bool :=
  match s with
  | EmptyString => true
  | String c s' => (is_alnum c || Ascii.eqb c "_"%char) && identifier_chars s'
  end.

(** Whether the loop renders [src]: the test of line 106. *)
Definition supported (h : Host) (cfg : Config) (src : string) : bool :=
  includes (getSupportedExtensions cfg) (ext_of h src).

(** The render call the loop makes for [src]. *)
Definition render_call (h : Host) (cfg : Config) (paths : Paths)
    (src : string) : Call :=
  SharpResizeToFile src (getIconSize cfg)
    (thumbnailPath_of h paths (generateIconId src)).

(** [deactivate], extension.ts lines 317-325: the pending timeout is
    cleared and the watcher disposed, after which no pattern is watched. *)
Record Deactivated := {
  remains : Session;
  watching : option string;
}.

Definition deactivate (s : Session) : Deactivated :=
  {| remains := match regenerateTimer s with
                | Some id => clearTimeout id s
                | None => s
                end;
     watching := None |}.

(** Events that call [generateIconTheme] or [scheduleIconRegeneration] when
    the watcher has the glob [pattern]. *)
Definition triggers (h : Host) (pattern : string) (e : Event) : bool :=
  match e with
  | RefreshCommand => true
  | FileCreated p | FileDeleted p | FileChanged p => glob_matches h pattern p
  | ConfigurationChanged (Some _) | WorkspaceFoldersChanged => true
  | _ => false
  end.


Definition count_triggers (h : Host) (pattern : string) (es : list Event) : nat :=
  List.length (List.filter (triggers h pattern) es).

Module Cases.
(** A host whose workspace search rejects. *)
Definition host_rejecting : Host :=
  Build_Host Posix.join Posix.basename Posix.extname Posix.dirname
             Posix.relative Posix.toLowerCase
             (fun _ _ _ => None) Posix.glob_matches
             Posix.sharp_resize_toFile Posix.sharp_create_toFile
             (Posix.stringify EmptyString) Posix.always_written
             (fun _ _ => true).

(** A valid image and a file that does not decode. *)
Definition valid_and_corrupt : World :=
  world_of (disk [("/ext/out/icons", Dir);
                  ("/ws/a.png", File "IMG a");
                  ("/ws/b.png", File "")]).

(** A default icon of an earlier cycle is on disk. *)
Definition with_default_icon : World :=
  world_of (disk [("/ext/out/icons", Dir);
                  ("/ext/out/icons/default-file.png", File "IMG earlier")]).

(** The thumbnail of an earlier version of [/ws/a.png] is on disk. *)
Definition stale_thumbnail : World :=
  world_of (disk [("/ext/out/icons", Dir);
                  ("/ext/out/icons/img__ws_a_png.png",
                   File "IMG thumbnail of IMG old a");
                  ("/ws/a.png", File "IMG new a")]).

(** A session with a regeneration pending at 500 ms. *)
Definition pending_session : Session :=
  handle Examples.host true WorkspaceFoldersChanged (activate default_config).
End Cases.

(** * Properties *)

(** ** Objects *)

Section ObjFacts.
Context {V : Type}.
Implicit Types (o : Obj V) (k : string) (v : V).

Lemma obj_get_define k' k v o :
  obj_get k' (obj_define k v o) = if String.eqb k' k then Some v else obj_get k' o.
Proof.
  induction o as [|[k0 v0] o IH]; simpl.
  - reflexivity.
  - destruct (String.eqb_spec k k0) as [->|Hk]; simpl.
    + destruct (String.eqb k' k0); reflexivity.
    + rewrite IH. destruct (String.eqb_spec k' k0) as [->|Hk'].
      * destruct (String.eqb_spec k0 k); congruence.
      * reflexivity.
Qed.

Lemma obj_get_set k' k v o :
  obj_get k' (obj_set k v o)
  = if negb (String.eqb k "__proto__") && String.eqb k' k
    then Some v else obj_get k' o.
Proof.
  unfold obj_set. destruct (String.eqb k "__proto__"); simpl.
  - reflexivity.
  - apply obj_get_define.
Qed.

Lemma obj_get_set_is_Some k' k v o :
  is_Some (obj_get k' o) → is_Some (obj_get k' (obj_set k v o)).
Proof.
  rewrite obj_get_set.
  destruct (negb (String.eqb k "__proto__") && String.eqb k' k); eauto.
Qed.

Lemma obj_get_Some_keys k v o : obj_get k o = Some v → k ∈ obj_keys o.
Proof.
  induction o as [|[k0 v0] o IH]; simpl; [discriminate|].
  destruct (String.eqb_spec k k0) as [->|Hk]; intros H.
  - apply list_elem_of_here.
  - apply list_elem_of_further, IH, H.
Qed.

Lemma obj_get_None_keys k o : obj_get k o = None ↔ k ∉ obj_keys o.
Proof.
  induction o as [|[k0 v0] o IH]; simpl.
  - split; [intros _; apply not_elem_of_nil | reflexivity].
  - rewrite not_elem_of_cons.
    destruct (String.eqb_spec k k0) as [->|Hk]; split; try discriminate.
    + intros [? _]; congruence.
    + intros H; split; [assumption | apply IH, H].
    + intros [_ H]; apply IH, H.
Qed.

Lemma obj_keys_define k v o :
  obj_keys (obj_define k v o)
  = if bool_decide (k ∈ obj_keys o) then obj_keys o else (obj_keys o ++ [k])%list.
Proof.
  unfold obj_keys.
  induction o as [|[k0 v0] o IH]; [reflexivity|].
  cbn [obj_define]. destruct (String.eqb_spec k k0) as [->|Hk].
  - rewrite !fmap_cons. simpl.
    rewrite bool_decide_eq_true_2; [reflexivity | apply list_elem_of_here].
  - rewrite !fmap_cons, IH. simpl.
    destruct (decide (k ∈ o.*1)) as [Hin|Hin].
    + rewrite !bool_decide_eq_true_2; [reflexivity | | assumption].
      apply list_elem_of_further, Hin.
    + rewrite !bool_decide_eq_false_2; [reflexivity | | assumption].
      rewrite not_elem_of_cons; tauto.
Qed.

Lemma obj_define_NoDup k v o : NoDup (obj_keys o) → NoDup (obj_keys (obj_define k v o)).
Proof.
  intros Hnd. rewrite obj_keys_define. case_bool_decide as Hin; [assumption|].
  apply NoDup_app. split; [assumption|]. split.
  - intros x Hx Hx'. apply list_elem_of_singleton in Hx'. congruence.
  - apply NoDup_singleton.
Qed.

Lemma obj_set_NoDup k v o : NoDup (obj_keys o) → NoDup (obj_keys (obj_set k v o)).
Proof.
  unfold obj_set. destruct (String.eqb k "__proto__"); [trivial|].
  apply obj_define_NoDup.
Qed.

(** The spread keeps the keys of the base first and lets the spread object
    win on a shared key. *)
Lemma obj_get_spread k base o :
  NoDup (obj_keys o) →
  obj_get k (obj_spread base o)
  = match obj_get k o with Some v => Some v | None => obj_get k base end.
Proof.
  unfold obj_spread. revert base.
  induction o as [|[k0 v0] o IH]; intros base Hnd; simpl; [reflexivity|].
  apply NoDup_cons in Hnd as [Hk0 Hnd]. rewrite (IH _ Hnd). simpl.
  rewrite obj_get_define.
  destruct (String.eqb_spec k k0) as [->|Hk].
  - simpl in Hk0. apply obj_get_None_keys in Hk0. rewrite Hk0. reflexivity.
  - reflexivity.
Qed.
End ObjFacts.

(** ** How the disk and the call log evolve *)

Section Evolution.
Implicit Types (P : Call → Prop) (w : World).

Lemma evolves_refl P w : evolves P w w.
Proof.
  exists []. split; [symmetry; apply app_nil_r|].
  split; [constructor|]. split; [trivial|]. intros p Hp. congruence.
Qed.

Lemma evolves_trans P w1 w2 w3 :
  evolves P w1 w2 → evolves P w2 w3 → evolves P w1 w3.
Proof.
  intros (n1 & Hc1 & HP1 & Hk1 & Hf1) (n2 & Hc2 & HP2 & Hk2 & Hf2).
  exists (n1 ++ n2)%list. split; [rewrite Hc2, Hc1; symmetry; apply app_assoc|].
  split; [apply Forall_app; split; assumption|].
  split; [intros p Hp; apply Hk2, Hk1, Hp|].
  intros p Hp. destruct (decide (fs w2 !! p = fs w1 !! p)) as [Heq|Hne].
  - destruct (Hf2 p) as (c & Hc & Ht); [congruence|].
    exists c. split; [apply elem_of_app; right; exact Hc | exact Ht].
  - destruct (Hf1 p Hne) as (c & Hc & Ht).
    exists c. split; [apply elem_of_app; left; exact Hc | exact Ht].
Qed.

Lemma evolves_weaken P Q w w' :
  (∀ c, P c → Q c) → evolves P w w' → evolves Q w w'.
Proof.
  intros HPQ (n & Hc & HP & Hk & Hf). exists n.
  split; [assumption|]. split; [|split; assumption].
  eapply Forall_impl; eassumption.
Qed.

(** One call whose effect [f] keeps every path and only changes the
    call's target. *)
Lemma evolves_called P c f w :
  P c →
  (∀ p, is_Some (fs w !! p) → is_Some (f (fs w) !! p)) →
  (∀ p, f (fs w) !! p ≠ fs w !! p → target c = Some p) →
  evolves P w (called c f w).
Proof.
  intros HP Hk Hf. exists [c]. split; [reflexivity|].
  split; [repeat constructor; exact HP|]. split; [exact Hk|].
  intros p Hp. exists c. split; [apply list_elem_of_here | apply Hf, Hp].
Qed.

Lemma insert_keeps (d : FS) q n p : is_Some (d !! p) → is_Some (<[q:=n]> d !! p).
Proof.
  intros Hp. destruct (decide (q = p)) as [->|Hne].
  - rewrite lookup_insert_eq. eauto.
  - rewrite lookup_insert_ne; assumption.
Qed.

Lemma insert_changes (d : FS) q n p : <[q:=n]> d !! p ≠ d !! p → q = p.
Proof.
  intros Hp. destruct (decide (q = p)) as [->|Hne]; [reflexivity|].
  rewrite lookup_insert_ne in Hp; congruence.
Qed.

Lemma sharp_effect_keeps out o (d : FS) p :
  is_Some (d !! p) → is_Some (sharp_effect out o d !! p).
Proof. destruct o as [png|[r|]]; simpl; auto using insert_keeps. Qed.

Lemma sharp_effect_changes out o (d : FS) p :
  sharp_effect out o d !! p ≠ d !! p → out = p.
Proof.
  destruct o as [png|[r|]]; simpl; intros Hp;
    [eapply insert_changes, Hp .. | congruence].
Qed.

Lemma write_effect_keeps q data o (d : FS) p :
  is_Some (d !! p) → is_Some (write_effect q data o d !! p).
Proof. destruct o; simpl; auto using insert_keeps. Qed.

Lemma write_effect_changes q data o (d : FS) p :
  write_effect q data o d !! p ≠ d !! p → q = p.
Proof.
  destruct o; simpl; intros Hp;
    [eapply insert_changes, Hp | congruence | eapply insert_changes, Hp].
Qed.
End Evolution.

(** *** Computations that keep a relation between the worlds *)

Section Stable.
Context (R : World → World → Prop).
Context (R_refl : ∀ w, R w w) (R_trans : ∀ a b c, R a b → R b c → R a c).

Lemma stable_ret {A} (a : A) : stable R (ret a).
Proof. intros w. apply R_refl. Qed.

Lemma stable_bind {A B} (m : M A) (k : A → M B) :
  stable R m → (∀ a, stable R (k a)) → stable R (bind m k).
Proof.
  intros Hm Hk w. unfold bind. specialize (Hm w).
  destruct (m w) as [[a|e] w1]; simpl in *.
  - eapply R_trans; [exact Hm | apply Hk].
  - exact Hm.
Qed.

Lemma stable_for_of {A S} (xs : list A) (body : A → S → M S) (s : S) :
  (∀ x s, x ∈ xs → stable R (body x s)) → stable R (for_of xs body s).
Proof.
  revert s. induction xs as [|x xs IH]; intros s Hbody; simpl.
  - apply stable_ret.
  - apply stable_bind.
    + apply Hbody, list_elem_of_here.
    + intros s'. apply IH. intros y s'' Hy. apply Hbody, list_elem_of_further, Hy.
Qed.
End Stable.

(** ** The calls and writes of one cycle *)

Lemma bind_returned {A B} (m : M A) (k : A → M B) w a w1 :
  m w = (Returned a, w1) → bind m k w = k a w1.
Proof. intros H. unfold bind. rewrite H. reflexivity. Qed.

Lemma bind_thrown {A B} (m : M A) (k : A → M B) w e w1 :
  m w = (Thrown e, w1) → bind m k w = (Thrown e, w1).
Proof. intros H. unfold bind. rewrite H. reflexivity. Qed.

Section Cycle.
Context (h : Host) (cfg : Config) (paths : Paths).
Implicit Types (w : World) (l : list string).

Lemma findImageFiles_run w :
  findImageFiles h cfg w
  = (Returned (discovered h cfg (fs w)),
     called (FindFiles (glob_of_extensions (getSupportedExtensions cfg))
                       exclude_pattern) id w).
Proof.
  unfold findImageFiles, discovered.
  destruct (findFiles h (fs w) _ _); reflexivity.
Qed.

Local Abbreviation ok b l := (evolves (cycle_call h cfg paths b l)).

Lemma ok_refl b l w : ok b l w w.
Proof. apply evolves_refl. Qed.

Lemma ok_trans b l w1 w2 w3 : ok b l w1 w2 → ok b l w2 w3 → ok b l w1 w3.
Proof. apply evolves_trans. Qed.

Lemma existsSync_run p w :
  existsSync p w = (Returned (bool_decide (is_Some (fs w !! p))), w).
Proof. reflexivity. Qed.

Lemma ensureOutputDir_stable b l : stable (ok b l) (ensureOutputDir h paths).
Proof.
  intros w. unfold ensureOutputDir.
  rewrite (bind_returned _ _ _ _ _ (existsSync_run _ w)).
  case_bool_decide; [apply ok_refl|].
  unfold mkdirSync. destruct (mkdirSync_succeeds h (fs w) _); simpl.
  - apply evolves_called; [reflexivity | intros p; apply insert_keeps |].
    intros p Hp. simpl. f_equal. eapply insert_changes, Hp.
  - apply evolves_called;
      [reflexivity | trivial | intros p Hp; exfalso; apply Hp; reflexivity].
Qed.

Lemma generateThumbnail_stable b l src :
  src ∈ l →
  stable (ok b l)
    (generateThumbnail h cfg src (thumbnailPath_of h paths (generateIconId src))).
Proof.
  intros Hsrc w. unfold generateThumbnail. simpl.
  apply evolves_called.
  - repeat split; assumption.
  - intros p. apply sharp_effect_keeps.
  - intros p Hp. simpl. f_equal. eapply sharp_effect_changes, Hp.
Qed.

Lemma processImage_stable b l exts src acc :
  src ∈ l → stable (ok b l) (processImage h cfg paths exts src acc).
Proof.
  intros Hsrc. unfold processImage.
  destruct (negb (includes exts (ext_of h src))).
  - apply stable_ret, ok_refl.
  - apply stable_bind; [apply ok_trans | apply generateThumbnail_stable, Hsrc |].
    intros [|]; apply stable_ret, ok_refl.
Qed.

Lemma processImages_stable b l exts :
  stable (ok b l) (processImages h cfg paths exts l).
Proof.
  apply stable_for_of; [apply ok_refl | apply ok_trans |].
  intros src acc Hsrc. apply processImage_stable, Hsrc.
Qed.

Lemma persist_stable b l t : stable (ok b l) (persist h paths t).
Proof.
  intros w. unfold persist, writeFileSync.
  set (o := writeFileSync_outcome h _ _ _).
  assert (ok b l w (called (WriteFileSync (iconThemePath paths)
                            (JSON_stringify h (to_json t)))
                         (write_effect (iconThemePath paths)
                            (JSON_stringify h (to_json t)) o) w)) as Hok.
  { apply evolves_called.
    - reflexivity.
    - intros p. apply write_effect_keeps.
    - intros p Hp. simpl. f_equal. eapply write_effect_changes, Hp. }
  destruct o; exact Hok.
Qed.

Lemma createDefaultIcon_stable l p rgb :
  p ∈ default_icon_paths h paths →
  stable (ok true l) (createDefaultIcon h cfg p rgb).
Proof.
  intros Hp w. unfold createDefaultIcon.
  rewrite (bind_returned _ _ _ _ _ (existsSync_run _ w)).
  case_bool_decide; [apply ok_refl|]. simpl.
  apply evolves_called.
  - split; [reflexivity|]. split; [reflexivity | exact Hp].
  - intros q. apply sharp_effect_keeps.
  - intros q Hq. simpl. f_equal. eapply sharp_effect_changes, Hq.
Qed.

Lemma createDefaultIcons_stable l : stable (ok true l) (createDefaultIcons h cfg paths).
Proof.
  unfold createDefaultIcons.
  repeat (apply stable_bind; [apply ok_trans | | intros _]);
    apply createDefaultIcon_stable; unfold default_icon_paths;
    repeat first [apply list_elem_of_here | apply list_elem_of_further].
Qed.

(** What [collectIcons] does after the search. *)
Lemma collectIcons_unfold w :
  collectIcons h cfg paths w
  = bind (ensureOutputDir h paths)
      (fun _ => processImages h cfg paths (getSupportedExtensions cfg)
                  (discovered h cfg (fs w)))
      (called (FindFiles (glob_of_extensions (getSupportedExtensions cfg))
                         exclude_pattern) id w).
Proof.
  unfold collectIcons.
  rewrite (bind_returned _ _ _ _ _ (findImageFiles_run w)). reflexivity.
Qed.

Lemma collectIcons_evolves b w :
  ok b (discovered h cfg (fs w)) w (collectIcons h cfg paths w).2.
Proof.
  rewrite collectIcons_unfold. set (l := discovered h cfg (fs w)).
  eapply ok_trans.
  - apply (evolves_called _
             (FindFiles (glob_of_extensions (getSupportedExtensions cfg))
                        exclude_pattern) id w);
      [split; reflexivity | trivial
      | intros p Hp; exfalso; apply Hp; reflexivity].
  - apply stable_bind; [apply ok_trans | apply ensureOutputDir_stable |].
    intros _. apply processImages_stable.
Qed.

Lemma assembleIconTheme_evolves b w :
  ok b (discovered h cfg (fs w)) w (assembleIconTheme h cfg paths w).2.
Proof.
  pose proof (collectIcons_evolves b w) as Hc.
  unfold assembleIconTheme, bind.
  destruct (collectIcons h cfg paths w) as [[acc|e] w1]; exact Hc.
Qed.

(** Every call of a cycle is one of [cycle_call]; the cycle loses no path
    and changes only the targets of its calls. *)
Lemma generateIconTheme_evolves w :
  ok true (discovered h cfg (fs w)) w (generateIconTheme h cfg paths w).2.
Proof.
  pose proof (assembleIconTheme_evolves true w) as Ha.
  unfold generateIconTheme, bind at 1.
  destruct (assembleIconTheme h cfg paths w) as [[t|e] w1]; simpl in *;
    [|exact Ha].
  eapply ok_trans; [exact Ha|].
  apply stable_bind; [apply ok_trans | apply persist_stable |].
  intros _. apply createDefaultIcons_stable.
Qed.
End Cycle.

(** ** The loop over the discovered files *)

Lemma generateIconId_not_proto src : String.eqb (generateIconId src) "__proto__" = false.
Proof. reflexivity. Qed.


Lemma existsb_Permutation {A} (f : A → bool) (l1 l2 : list A) :
  Permutation l1 l2 → existsb f l1 = existsb f l2.
Proof.
  intros HP. apply eq_true_iff_eq. rewrite !existsb_exists.
  split; intros (x & Hx & Hf); exists x; split; try assumption.
  - eapply Permutation_in; eassumption.
  - eapply Permutation_in; [symmetry|]; eassumption.
Qed.

Section Loop.
Context (h : Host) (cfg : Config) (paths : Paths).
Implicit Types (w : World) (l : list string) (acc : Obj IconDef * Obj string).

Lemma sharp_effect_holds_file out o (d : FS) p :
  holds_file d p → holds_file (sharp_effect out o d) p.
Proof.
  intros [c Hc]. unfold holds_file.
  destruct o as [png|[r|]]; simpl; [| |eauto];
    (destruct (decide (out = p)) as [->|Hne];
     [rewrite lookup_insert_eq; eauto | rewrite lookup_insert_ne; eauto]).
Qed.

(** One iteration, run: it returns, it changes at most the thumbnail of
    [src], it leaves that thumbnail on disk when it keeps [src], and files
    stay files. *)
Lemma processImage_run src acc w :
  ∃ w',
    processImage h cfg paths (getSupportedExtensions cfg) src acc w
    = (Returned (record_image h paths (rendered h cfg paths (fs w)) acc src), w')
    ∧ (∀ p, p ≠ thumbnailPath_of h paths (generateIconId src) →
            fs w' !! p = fs w !! p)
    ∧ (rendered h cfg paths (fs w) src = true →
       holds_file (fs w') (thumbnailPath_of h paths (generateIconId src)))
    ∧ (∀ p, holds_file (fs w) p → holds_file (fs w') p).
Proof.
  unfold processImage, record_image, rendered.
  destruct (includes (getSupportedExtensions cfg) (ext_of h src)); simpl.
  - unfold bind, generateThumbnail.
    set (o := sharp_resize_toFile h _ _ _).
    eexists. split; [destruct (resolved o); reflexivity|]. simpl.
    split; [|split].
    + intros p Hp.
      destruct (decide (sharp_effect (thumbnailPath_of h paths (generateIconId src))
                          o (fs w) !! p = fs w !! p)) as [Heq|Hne];
        [exact Heq|].
      apply sharp_effect_changes in Hne. congruence.
    + destruct o as [png|r]; simpl; [|discriminate]. intros _.
      exists png. apply lookup_insert_eq.
    + intros p. apply sharp_effect_holds_file.
  - exists w. split; [reflexivity|]. split; [reflexivity|].
    split; [discriminate | trivial].
Qed.

(** When no discovered file is itself one of the thumbnails being written,
    the loop is the fold of [record_image] with the verdicts taken on the
    disk it started from. *)
Lemma processImages_fold l : ∀ acc w (d : FS),
  (∀ src, src ∈ l → fs w !! src = d !! src) →
  (∀ src src', src ∈ l → src' ∈ l →
     src ≠ thumbnailPath_of h paths (generateIconId src')) →
  ∃ w',
    for_of l (processImage h cfg paths (getSupportedExtensions cfg)) acc w
    = (Returned (fold_left (record_image h paths (rendered h cfg paths d)) l acc), w').
Proof.
  induction l as [|x l IH]; intros acc w d Hd Hdisj; simpl.
  - exists w. reflexivity.
  - destruct (processImage_run x acc w) as (w1 & Hrun & Hframe & _).
    rewrite (bind_returned _ _ _ _ _ Hrun).
    assert (rendered h cfg paths (fs w) x = rendered h cfg paths d x) as Hx.
    { unfold rendered. rewrite (Hd x); [reflexivity | apply list_elem_of_here]. }
    unfold record_image at 1. unfold record_image at 2. rewrite Hx.
    apply IH.
    + intros src Hsrc. rewrite Hframe.
      * apply Hd, list_elem_of_further, Hsrc.
      * apply Hdisj; [apply list_elem_of_further, Hsrc | apply list_elem_of_here].
    + intros src src' Hs Hs'.
      apply Hdisj; apply list_elem_of_further; assumption.
Qed.

(** *** The fold, whatever the verdicts *)

Section Fold.
Context (keep : string → bool).
Local Abbreviation step := (record_image h paths keep).

Lemma fold_defs k l : ∀ acc,
  obj_get k (fold_left step l acc).1
  = if existsb (fun src => keep src && String.eqb k (generateIconId src)) l
    then Some (definition_of h paths k)
    else obj_get k acc.1.
Proof.
  induction l as [|x l IH]; intros acc; simpl; [reflexivity|].
  rewrite IH. unfold record_image.
  destruct (existsb _ l); [rewrite orb_true_r; reflexivity|].
  rewrite orb_false_r. destruct (keep x); simpl; [|reflexivity].
  rewrite obj_get_set, generateIconId_not_proto. simpl.
  destruct (String.eqb_spec k (generateIconId x)) as [->|]; reflexivity.
Qed.

Lemma fold_names_origin k v l : ∀ acc,
  obj_get k (fold_left step l acc).2 = Some v →
  (∃ src, src ∈ l ∧ keep src = true ∧ path_basename h src = k
          ∧ v = generateIconId src)
  ∨ obj_get k acc.2 = Some v.
Proof.
  induction l as [|x l IH]; intros acc; simpl; [auto|].
  intros Hget. apply IH in Hget as [(src & Hin & Hk & Hb & Hv)|Hget].
  - left. exists src. split; [apply list_elem_of_further, Hin | auto].
  - unfold record_image in Hget. destruct (keep x) eqn:Hx; [|auto].
    simpl in Hget. rewrite obj_get_set in Hget.
    destruct (negb _ && String.eqb k (path_basename h x)) eqn:Hc; [|auto].
    apply andb_true_iff in Hc as [_ Hc]. apply String.eqb_eq in Hc.
    left. exists x. split; [apply list_elem_of_here|].
    repeat split; congruence.
Qed.

Lemma fold_names_keys k l : ∀ acc,
  is_Some (obj_get k (fold_left step l acc).2)
  ↔ (k ≠ "__proto__"
     ∧ ∃ src, src ∈ l ∧ keep src = true ∧ path_basename h src = k)
    ∨ is_Some (obj_get k acc.2).
Proof.
  induction l as [|x l IH]; intros acc; simpl.
  - split; [auto|]. intros [(_ & src & Hin & _)|H]; [|exact H].
    apply elem_of_nil in Hin as [].
  - rewrite IH. unfold record_image.
    split.
    + intros [(Hk & src & Hin & Hs)|Hacc].
      * left. split; [exact Hk|]. exists src.
        split; [apply list_elem_of_further, Hin | exact Hs].
      * destruct (keep x) eqn:Hx; [|auto]. simpl in Hacc.
        rewrite obj_get_set in Hacc.
        destruct (String.eqb_spec (path_basename h x) "__proto__") as [Hp|Hp];
          simpl in Hacc; [auto|].
        destruct (String.eqb_spec k (path_basename h x)) as [->|]; [|auto].
        left. split; [exact Hp|]. exists x.
        split; [apply list_elem_of_here | auto].
    + intros [(Hk & src & Hin & Hs & Hb)|Hacc].
      * apply elem_of_cons in Hin as [->|Hin].
        -- right. rewrite Hs. simpl. rewrite obj_get_set, Hb.
           apply String.eqb_neq in Hk. rewrite Hk, String.eqb_refl. simpl. eauto.
        -- left. split; [exact Hk|]. exists src. auto.
      * right. destruct (keep x); [|exact Hacc]. simpl.
        apply obj_get_set_is_Some, Hacc.
Qed.

Lemma fold_NoDup l : ∀ acc,
  NoDup (obj_keys acc.1) → NoDup (obj_keys (fold_left step l acc).1).
Proof.
  induction l as [|x l IH]; intros acc Hnd; simpl; [exact Hnd|].
  apply IH. unfold record_image. destruct (keep x); [|exact Hnd].
  simpl. apply obj_set_NoDup, Hnd.
Qed.

(** Every name recorded points at a definition recorded. *)
Lemma fold_names_defined l : ∀ acc,
  (∀ k v, obj_get k acc.2 = Some v → is_Some (obj_get v acc.1)) →
  ∀ k v, obj_get k (fold_left step l acc).2 = Some v →
         is_Some (obj_get v (fold_left step l acc).1).
Proof.
  intros acc Hacc k v Hget. rewrite fold_defs.
  destruct (existsb _ l) eqn:He; [eauto|].
  apply fold_names_origin in Hget as [(src & Hin & Hk & _ & ->)|Hget];
    [|apply Hacc in Hget; exact Hget].
  exfalso. apply not_true_iff_false in He. apply He.
  apply existsb_exists. exists src. split; [apply list_elem_of_In, Hin|].
  rewrite Hk, String.eqb_refl. reflexivity.
Qed.
End Fold.

(** The fold only looks at the verdicts of the files it is given. *)
Lemma fold_left_record_image_ext keep1 keep2 l : ∀ acc,
  (∀ src, src ∈ l → keep1 src = keep2 src) →
  fold_left (record_image h paths keep1) l acc
  = fold_left (record_image h paths keep2) l acc.
Proof.
  induction l as [|x l IH]; intros acc Hk; simpl; [reflexivity|].
  unfold record_image at 2 4. rewrite (Hk x); [|apply list_elem_of_here].
  apply IH. intros src Hsrc. apply Hk, list_elem_of_further, Hsrc.
Qed.
End Loop.

(** ** The invariant of the loop *)

Section Consistency.
Context (h : Host) (cfg : Config) (paths : Paths).
Implicit Types (w : World) (l L : list string) (acc : Obj IconDef * Obj string).

Lemma consistent_empty L (d : FS) : consistent h paths L ([], []) d.
Proof.
  split; [|split]; simpl; try discriminate. apply NoDup_nil_2.
Qed.

Lemma record_image_consistent L keep acc src (d d' : FS) :
  src ∈ L →
  consistent h paths L acc d →
  (∀ p, holds_file d p → holds_file d' p) →
  (keep src = true →
   holds_file d' (thumbnailPath_of h paths (generateIconId src))) →
  consistent h paths L (record_image h paths keep acc src) d'.
Proof.
  intros Hsrc (Hnames & Hdefs & Hnd) Hfiles Hthumb.
  unfold record_image. destruct (keep src) eqn:Hk.
  - specialize (Hthumb eq_refl). split; [|split]; simpl.
    + intros name iconId. rewrite obj_get_set.
      destruct (negb _ && String.eqb name _); intros Hget.
      * injection Hget as <-. rewrite obj_get_set, generateIconId_not_proto.
        rewrite String.eqb_refl. simpl. eauto.
      * apply obj_get_set_is_Some. eapply Hnames, Hget.
    + intros iconId def. rewrite obj_get_set, generateIconId_not_proto. simpl.
      destruct (String.eqb_spec iconId (generateIconId src)) as [->|Hne];
        intros Hget.
      * injection Hget as <-. split; [eauto|]. split; [reflexivity | exact Hthumb].
      * destruct (Hdefs _ _ Hget) as (Hs & Hd & Hf).
        split; [exact Hs|]. split; [exact Hd | apply Hfiles, Hf].
    + apply obj_set_NoDup, Hnd.
  - split; [exact Hnames|]. split; [|exact Hnd].
    intros iconId def Hget. destruct (Hdefs _ _ Hget) as (Hs & Hd & Hf).
    split; [exact Hs|]. split; [exact Hd | apply Hfiles, Hf].
Qed.

(** The loop returns, and it keeps the invariant. *)
Lemma processImages_consistent L l : ∀ acc w,
  (∀ src, src ∈ l → src ∈ L) →
  consistent h paths L acc (fs w) →
  ∃ acc' w',
    for_of l (processImage h cfg paths (getSupportedExtensions cfg)) acc w
    = (Returned acc', w')
    ∧ consistent h paths L acc' (fs w').
Proof.
  induction l as [|x l IH]; intros acc w HL Hc; simpl.
  - exists acc, w. split; [reflexivity | exact Hc].
  - destruct (processImage_run h cfg paths x acc w)
      as (w1 & Hrun & _ & Hthumb & Hfiles).
    rewrite (bind_returned _ _ _ _ _ Hrun).
    apply IH.
    + intros src Hsrc. apply HL, list_elem_of_further, Hsrc.
    + eapply record_image_consistent;
        [apply HL, list_elem_of_here | exact Hc | exact Hfiles | exact Hthumb].
Qed.

Lemma ensureOutputDir_run w :
  ensureOutputDir h paths w
  = if bool_decide (is_Some (fs w !! outputIconsDir paths))
    then (Returned (), w)
    else if mkdirSync_succeeds h (fs w) (outputIconsDir paths)
         then (Returned (),
               called (MkdirSync (outputIconsDir paths))
                      (insert (outputIconsDir paths) Dir) w)
         else (Thrown "mkdirSync",
               called (MkdirSync (outputIconsDir paths)) id w).
Proof.
  unfold ensureOutputDir.
  rewrite (bind_returned _ _ _ _ _ (existsSync_run _ w)).
  case_bool_decide; [reflexivity|]. unfold mkdirSync.
  destruct (mkdirSync_succeeds h (fs w) (outputIconsDir paths)); reflexivity.
Qed.

(** [collectIcons] throws only when the output directory cannot be made;
    otherwise the objects it returns are consistent with the disk it
    leaves, on which the output directory exists. *)
Lemma collectIcons_returns w :
  (∃ e w1, collectIcons h cfg paths w = (Thrown e, w1) ∧ fs w1 = fs w
           ∧ fs w !! outputIconsDir paths = None
           ∧ mkdirSync_succeeds h (fs w) (outputIconsDir paths) = false)
  ∨ (∃ acc w1,
       collectIcons h cfg paths w = (Returned acc, w1)
       ∧ consistent h paths (discovered h cfg (fs w)) acc (fs w1)
       ∧ is_Some (fs w1 !! outputIconsDir paths)).
Proof.
  rewrite collectIcons_unfold. set (l := discovered h cfg (fs w)).
  set (w0 := called _ id w).
  assert (∀ wa, is_Some (fs wa !! outputIconsDir paths) →
    ∃ acc w1,
      processImages h cfg paths (getSupportedExtensions cfg) l wa
      = (Returned acc, w1)
      ∧ consistent h paths l acc (fs w1)
      ∧ is_Some (fs w1 !! outputIconsDir paths)) as Hloop.
  { intros wa Hdir.
    destruct (processImages_consistent l l ([], []) wa)
      as (acc & w1 & Hrun & Hc); [trivial | apply consistent_empty |].
    exists acc, w1. unfold processImages. split; [exact Hrun|].
    split; [exact Hc|].
    pose proof (processImages_stable h cfg paths true l (getSupportedExtensions cfg) wa)
      as (_ & _ & _ & Hk & _).
    unfold processImages in Hk. rewrite Hrun in Hk. apply Hk, Hdir. }
  pose proof (ensureOutputDir_run w0) as Hdir.
  case_bool_decide as Hpresent.
  - right. rewrite (bind_returned _ _ _ _ _ Hdir). apply Hloop, Hpresent.
  - destruct (mkdirSync_succeeds h (fs w0) (outputIconsDir paths)) eqn:Hmk.
    + right. rewrite (bind_returned _ _ _ _ _ Hdir). apply Hloop. simpl.
      rewrite lookup_insert_eq. eauto.
    + left. rewrite (bind_thrown _ _ _ _ _ Hdir). eexists _, _.
      split; [reflexivity|]. split; [reflexivity|].
      split; [apply eq_None_not_Some, Hpresent | exact Hmk].
Qed.

(** The theme a cycle assembles, when it assembles one. *)
Lemma assembleIconTheme_Returned w t w1 :
  assembleIconTheme h cfg paths w = (Returned t, w1) →
  ∃ acc,
    collectIcons h cfg paths w = (Returned acc, w1)
    ∧ t = theme_of (getSupportedExtensions cfg) acc
    ∧ consistent h paths (discovered h cfg (fs w)) acc (fs w1)
    ∧ is_Some (fs w1 !! outputIconsDir paths).
Proof.
  unfold assembleIconTheme, bind. intros Hrun.
  destruct (collectIcons_returns w)
    as [(e & w2 & Hc & _)|(acc & w2 & Hc & Hcons & Hdir)];
    rewrite Hc in Hrun; [discriminate|].
  injection Hrun as <- <-. exists acc. auto.
Qed.
End Consistency.

(** ** Icon identifiers *)

Lemma generateIconId_eq_iff a b :
  generateIconId a = generateIconId b ↔ replace_non_alnum a = replace_non_alnum b.
Proof.
  unfold generateIconId. simpl. split; [|congruence].
  intros H. injection H. trivial.
Qed.

(** C1. For one path [generateIconId] always gives the same identifier, but
    it does not tell all paths apart: a character outside [a-zA-Z0-9] is
    replaced by an underscore, so [a-b.png] and [a_b.png] of one directory
    receive the same identifier although the paths differ. *)
Theorem generateIconId_collision :
  "/ws/icons/a-b.png" ≠ "/ws/icons/a_b.png"
  ∧ generateIconId "/ws/icons/a-b.png" = "img__ws_icons_a_b_png"
  ∧ generateIconId "/ws/icons/a_b.png" = "img__ws_icons_a_b_png".
Proof. split; [discriminate | split; reflexivity]. Qed.

(** ** The icon size *)

(** C8, as stated, fails: with [iconSize] set to 100 the value read is 100,
    outside 8..32, and the cycle renders the thumbnail at that size. *)
Lemma iconSize_100_not_clamped :
  let cfg := Examples.with_iconSize 100 in
  getIconSize cfg = 100%Z
  ∧ ¬ (8 ≤ getIconSize cfg ≤ 32)%Z
  ∧ SharpResizeToFile "/ws/a.png" 100 "/ext/out/icons/img__ws_a_png.png"
    ∈ calls (generateIconTheme Examples.host cfg Examples.paths
               Examples.one_image).2.
Proof.
  intros cfg. split; [reflexivity|].
  split; [change (getIconSize cfg) with 100%Z; lia|].
  set (cs := calls _). vm_compute in cs. subst cs.
  repeat first [apply list_elem_of_here | apply list_elem_of_further].
Qed.

(** C8, amended.  The size read is the stored setting, or 16 when the
    setting is absent, and every render call of a cycle is made with exactly
    that value: nothing brings it into 8..32. *)
Theorem iconSize_used_as_configured h cfg paths w :
  getIconSize cfg = match cfg_iconSize cfg with Some n => n | None => 16%Z end
  ∧ ∃ new,
      calls (generateIconTheme h cfg paths w).2 = (calls w ++ new)%list
      ∧ ∀ c, c ∈ new →
             match c with
             | SharpResizeToFile _ size _ | SharpCreateToFile size _ _ =>
                 size = getIconSize cfg
             | _ => True
             end.
Proof.
  split; [destruct cfg as [? ? [n|]]; reflexivity|].
  destruct (generateIconTheme_evolves h cfg paths w) as (new & Hc & HP & _).
  exists new. split; [exact Hc|]. intros c Hin.
  rewrite Forall_forall in HP. specialize (HP c Hin).
  destruct c; simpl in HP; try exact I; tauto.
Qed.

(** ** Persisting the descriptor *)




(** ** What a cycle leaves on disk *)


Lemma cycle_call_target h cfg paths b l c p :
  cycle_call h cfg paths b l c → target c = Some p →
  p = outputIconsDir paths ∨ p = iconThemePath paths
  ∨ p ∈ thumbnail_paths h paths l ∨ p ∈ default_icon_paths h paths.
Proof.
  destruct c; simpl; intros Hc Ht; try discriminate; try contradiction;
    injection Ht as <-.
  - left. exact Hc.
  - destruct Hc as (Hin & _ & ->). right; right; left.
    unfold thumbnail_paths. apply list_elem_of_fmap. eauto.
  - right; right; right. apply Hc.
  - right; left. exact Hc.
Qed.

(** The definitions of a theme that are not the three defaults are those
    of files the cycle discovered. *)
Lemma theme_definition_origin h cfg paths w t w1 iconId def :
  assembleIconTheme h cfg paths w = (Returned t, w1) →
  obj_get iconId (iconDefinitions t) = Some def →
  obj_get iconId default_iconDefinitions = Some def
  ∨ ((∃ src, src ∈ discovered h cfg (fs w) ∧ iconId = generateIconId src)
     ∧ def = definition_of h paths iconId
     ∧ holds_file (fs w1) (thumbnailPath_of h paths iconId)).
Proof.
  intros Hrun Hget.
  apply assembleIconTheme_Returned in Hrun
    as (acc & _ & -> & (_ & Hdefs & Hnd) & _).
  simpl in Hget. rewrite (obj_get_spread _ _ _ Hnd) in Hget.
  destruct (obj_get iconId acc.1) as [d|] eqn:Hacc.
  - injection Hget as <-. right. apply Hdefs, Hacc.
  - left. exact Hget.
Qed.




(** ** Consistency of the descriptor *)

Lemma write_effect_holds_file q data o (d : FS) p :
  holds_file d p → holds_file (write_effect q data o d) p.
Proof.
  intros [c Hc]. unfold holds_file.
  destruct o; simpl; [|eauto|];
    (destruct (decide (q = p)) as [->|Hne];
     [rewrite lookup_insert_eq; eauto | rewrite lookup_insert_ne; eauto]).
Qed.

Lemma persist_holds_file h paths t w p :
  holds_file (fs w) p → holds_file (fs (persist h paths t w).2) p.
Proof.
  intros Hp. unfold persist, writeFileSync.
  set (o := writeFileSync_outcome h _ _ _).
  assert (holds_file (write_effect (iconThemePath paths)
                        (JSON_stringify h (to_json t)) o (fs w)) p) as H
    by apply write_effect_holds_file, Hp.
  destruct o; exact H.
Qed.

(** C7, as stated, fails on the first cycle: the theme assembled on a disk
    with an empty output directory defines [_file] with the path
    [./default-file.png], and neither when [writeFileSync] is called nor
    when it has returned is there a [default-file.png] next to the
    descriptor. *)
Lemma default_icon_referenced_before_created :
  let r := assembleIconTheme Examples.host default_config Examples.paths
             Examples.fresh in
  ∃ t,
    r.1 = Returned t
    ∧ obj_get "_file" (iconDefinitions t)
      = Some {| iconPath := "./default-file.png" |}
    ∧ defaultIconPath Examples.host Examples.paths
      = "/ext/out/icons/default-file.png"
    ∧ fs r.2 !! "/ext/out/icons/default-file.png" = None
    ∧ (persist Examples.host Examples.paths t r.2).1 = Returned ()
    ∧ fs (persist Examples.host Examples.paths t r.2).2
        !! "/ext/out/icons/default-file.png" = None.
Proof.
  eexists. split; [vm_compute; reflexivity|].
  repeat split; vm_compute; reflexivity.
Qed.

(** C7, amended.  In every theme a cycle assembles, each value of
    [fileNames] is a key of [iconDefinitions]; and each definition other
    than the three defaults carries the relative path of its thumbnail,
    which is a file on disk when [writeFileSync] is called and when it has
    ended. *)
Theorem descriptor_consistent h cfg paths w t w1 :
  assembleIconTheme h cfg paths w = (Returned t, w1) →
  (∀ name iconId,
     obj_get name (fileNames t) = Some iconId →
     is_Some (obj_get iconId (iconDefinitions t)))
  ∧ (∀ iconId def,
       obj_get iconId (iconDefinitions t) = Some def →
       obj_get iconId default_iconDefinitions = Some def
       ∨ (def = definition_of h paths iconId
          ∧ holds_file (fs w1) (thumbnailPath_of h paths iconId)
          ∧ holds_file (fs (persist h paths t w1).2)
                       (thumbnailPath_of h paths iconId))).
Proof.
  intros Hrun. split.
  - apply assembleIconTheme_Returned in Hrun
      as (acc & _ & -> & (Hnames & _ & Hnd) & _).
    intros name iconId Hget. simpl in *.
    rewrite (obj_get_spread _ _ _ Hnd).
    destruct (Hnames _ _ Hget) as [d ->]. eauto.
  - intros iconId def Hget.
    destruct (theme_definition_origin _ _ _ _ _ _ _ _ Hrun Hget)
      as [Hdef|(_ & Hd & Hf)]; [left; exact Hdef|].
    right. split; [exact Hd|]. split; [exact Hf|].
    apply persist_holds_file, Hf.
Qed.

(** The theme of the workspace with one image. *)
Lemma descriptor_consistent_witness :
  ∃ t w1,
    assembleIconTheme Examples.host default_config Examples.paths
      Examples.one_image = (Returned t, w1)
    ∧ is_Some (obj_get "img__ws_a_png" (iconDefinitions t))
    ∧ holds_file (fs w1) "/ext/out/icons/img__ws_a_png.png".
Proof.
  eexists _, _. split; [vm_compute; reflexivity|].
  match goal with
  | |- context [iconDefinitions ?t] =>
      pose proof (descriptor_consistent Examples.host default_config
                    Examples.paths Examples.one_image t _ eq_refl)
        as (Hnames & Hdefs)
  end.
  split.
  - apply (Hnames "a.png"). vm_compute. reflexivity.
  - destruct (Hdefs "img__ws_a_png"
                {| iconPath := "img__ws_a_png.png" |} eq_refl)
      as [Hd|(_ & Hf & _)]; [discriminate Hd | exact Hf].
Defined.

(** ** The copy of the file without default icons *)

Section OtherCopy.
Context (h : Host) (cfg : Config) (paths : Paths).



(** X14.  In the themes of the copy without default icons every name
    points at a definition, and every definition carries the relative path
    of its thumbnail, which is a file on disk when the theme is returned. *)
Lemma part000_descriptor_consistent w t w1 :
  Part000.assembleIconTheme h cfg paths w = (Returned t, w1) →
  (∀ name iconId,
     obj_get name (Part000.fileNames t) = Some iconId →
     is_Some (obj_get iconId (Part000.iconDefinitions t)))
  ∧ (∀ iconId def,
       obj_get iconId (Part000.iconDefinitions t) = Some def →
       def = definition_of h paths iconId
       ∧ holds_file (fs w1) (thumbnailPath_of h paths iconId)).
Proof.
  unfold Part000.assembleIconTheme, bind. intros Hrun.
  destruct (collectIcons_returns h cfg paths w)
    as [(e & w2 & Hc & _)|(acc & w2 & Hc & (Hnames & Hdefs & _) & _)];
    rewrite Hc in Hrun; [discriminate|].
  injection Hrun as <- <-. simpl. split; [exact Hnames|].
  intros iconId def Hget. destruct (Hdefs _ _ Hget) as (_ & Hd & Hf). auto.
Qed.
End OtherCopy.

(** ** The order of discovery *)

Section Order.
Context (h : Host) (cfg : Config) (paths : Paths).

(** The loop run on a list none of whose files is a thumbnail being
    written. *)
Lemma processImages_run l w :
  (∀ src src', src ∈ l → src' ∈ l →
     src ≠ thumbnailPath_of h paths (generateIconId src')) →
  ∃ w',
    processImages h cfg paths (getSupportedExtensions cfg) l w
    = (Returned (fold_left (record_image h paths (rendered h cfg paths (fs w)))
                   l ([], [])), w').
Proof.
  intros Hdisj. unfold processImages.
  apply processImages_fold; [reflexivity | exact Hdisj].
Qed.

Lemma fold_defs_Permutation keep l1 l2 k :
  Permutation l1 l2 →
  obj_get k (fold_left (record_image h paths keep) l1 ([], [])).1
  = obj_get k (fold_left (record_image h paths keep) l2 ([], [])).1.
Proof.
  intros HP. rewrite !fold_defs.
  rewrite (existsb_Permutation _ _ _ HP). reflexivity.
Qed.

Lemma fold_names_keys_Permutation keep l1 l2 k :
  Permutation l1 l2 →
  is_Some (obj_get k (fold_left (record_image h paths keep) l1 ([], [])).2)
  → is_Some (obj_get k (fold_left (record_image h paths keep) l2 ([], [])).2).
Proof.
  intros HP. rewrite !fold_names_keys.
  intros [(Hk & src & Hin & Hs)|H]; [|right; exact H].
  left. split; [exact Hk|]. exists src. split; [|exact Hs].
  rewrite <- HP. exact Hin.
Qed.

Lemma fold_names_Permutation keep l1 l2 k :
  Permutation l1 l2 →
  (∀ a b, a ∈ l1 → b ∈ l1 → keep a = true → keep b = true →
          path_basename h a = path_basename h b → a = b) →
  obj_get k (fold_left (record_image h paths keep) l1 ([], [])).2
  = obj_get k (fold_left (record_image h paths keep) l2 ([], [])).2.
Proof.
  intros HP Huniq.
  destruct (obj_get k (fold_left _ l1 _).2) as [v1|] eqn:H1;
    destruct (obj_get k (fold_left _ l2 _).2) as [v2|] eqn:H2;
    [| | |reflexivity].
  - apply fold_names_origin in H1 as [(a & Ha & Hka & Hba & ->)|H1];
      [|discriminate].
    apply fold_names_origin in H2 as [(b & Hb & Hkb & Hbb & ->)|H2];
      [|discriminate].
    rewrite <- HP in Hb. rewrite (Huniq a b); auto. congruence.
  - exfalso. apply (is_Some_None (A := string)). rewrite <- H2.
    apply (fold_names_keys_Permutation keep l1 l2 k HP). rewrite H1. eauto.
  - exfalso. apply (is_Some_None (A := string)). rewrite <- H1.
    apply (fold_names_keys_Permutation keep l2 l1 k); [symmetry; exact HP|].
    rewrite H2. eauto.
Qed.
End Order.

(** C4, as stated, fails: on the disk with [dir1/x.png] and [dir2/x.png]
    the search that returns [dir1] first and the search that returns [dir2]
    first give themes that differ in the value of [fileNames["x.png"]] and
    in the order of the keys of [iconDefinitions], and descriptors that
    differ as strings. *)
Lemma discovery_order_changes_descriptor :
  let first := ["/ws/dir1/x.png"; "/ws/dir2/x.png"] in
  let second := ["/ws/dir2/x.png"; "/ws/dir1/x.png"] in
  let theme order :=
    (assembleIconTheme (Examples.host_visiting order) default_config
       Examples.paths Examples.same_name).1 in
  let bytes order :=
    descriptor_of (Examples.host_visiting order) default_config
      Examples.paths Examples.same_name in
  Permutation first second
  ∧ (∃ t1 t2,
       theme first = Returned t1 ∧ theme second = Returned t2
       ∧ obj_get "x.png" (fileNames t1) = Some "img__ws_dir2_x_png"
       ∧ obj_get "x.png" (fileNames t2) = Some "img__ws_dir1_x_png"
       ∧ obj_keys (iconDefinitions t1)
         = ["_file"; "_folder"; "_folder_open";
            "img__ws_dir1_x_png"; "img__ws_dir2_x_png"]
       ∧ obj_keys (iconDefinitions t2)
         = ["_file"; "_folder"; "_folder_open";
            "img__ws_dir2_x_png"; "img__ws_dir1_x_png"])
  ∧ bytes first ≠ bytes second.
Proof.
  split; [apply perm_swap|]. split.
  - eexists _, _. split; [vm_compute; reflexivity|].
    split; [vm_compute; reflexivity|]. repeat split; vm_compute; reflexivity.
  - intros Heq.
    assert (bool_decide
              (descriptor_of (Examples.host_visiting
                                ["/ws/dir1/x.png"; "/ws/dir2/x.png"])
                 default_config Examples.paths Examples.same_name
               = descriptor_of (Examples.host_visiting
                                  ["/ws/dir2/x.png"; "/ws/dir1/x.png"])
                   default_config Examples.paths Examples.same_name)
            = false) as Hne by (vm_compute; reflexivity).
    apply bool_decide_eq_false in Hne. contradiction.
Qed.

(** C4, amended.  Nothing sorts the discovered files.  When none of them is
    itself a thumbnail being written, two orders of the same files give
    themes with the same mapping [iconDefinitions] and the same keys in
    [fileNames]; the values of [fileNames] agree as well when no two files
    that are kept share a base name.  (Otherwise the file visited last
    wins, and the order of the keys follows the order of discovery.) *)
Theorem theme_content_independent_of_order h cfg paths l1 l2 w :
  Permutation l1 l2 →
  (∀ src src', src ∈ l1 → src' ∈ l1 →
     src ≠ thumbnailPath_of h paths (generateIconId src')) →
  ∃ acc1 w1 acc2 w2,
    processImages h cfg paths (getSupportedExtensions cfg) l1 w
    = (Returned acc1, w1)
    ∧ processImages h cfg paths (getSupportedExtensions cfg) l2 w
      = (Returned acc2, w2)
    ∧ let t1 := theme_of (getSupportedExtensions cfg) acc1 in
      let t2 := theme_of (getSupportedExtensions cfg) acc2 in
      (∀ iconId,
         obj_get iconId (iconDefinitions t1) = obj_get iconId (iconDefinitions t2))
      ∧ fileExtensions t1 = fileExtensions t2
      ∧ (∀ name,
           is_Some (obj_get name (fileNames t1))
           ↔ is_Some (obj_get name (fileNames t2)))
      ∧ ((∀ a b, a ∈ l1 → b ∈ l1 →
                 rendered h cfg paths (fs w) a = true →
                 rendered h cfg paths (fs w) b = true →
                 path_basename h a = path_basename h b → a = b) →
         ∀ name, obj_get name (fileNames t1) = obj_get name (fileNames t2)).
Proof.
  intros HP Hdisj.
  destruct (processImages_run h cfg paths l1 w Hdisj) as (w1 & H1).
  destruct (processImages_run h cfg paths l2 w) as (w2 & H2).
  { intros src src' Hs Hs'. rewrite <- HP in Hs, Hs'. apply Hdisj; assumption. }
  eexists _, w1, _, w2. split; [exact H1|]. split; [exact H2|].
  simpl. split; [|split; [reflexivity|split]].
  - intros iconId.
    rewrite !obj_get_spread
      by (apply fold_NoDup; simpl; apply NoDup_nil_2).
    rewrite (fold_defs_Permutation h paths _ l1 l2 iconId HP). reflexivity.
  - intros name. split; apply fold_names_keys_Permutation;
      [exact HP | symmetry; exact HP].
  - intros Huniq name. apply fold_names_Permutation; assumption.
Qed.

(** Two images of different base names, visited in either order. *)
Lemma theme_content_independent_of_order_witness :
  ∃ acc1 w1 acc2 w2,
    processImages Examples.host default_config Examples.paths
      (getSupportedExtensions default_config)
      ["/ws/a.png"; "/ws/dir1/x.png"] Examples.two_names
    = (Returned acc1, w1)
    ∧ processImages Examples.host default_config Examples.paths
        (getSupportedExtensions default_config)
        ["/ws/dir1/x.png"; "/ws/a.png"] Examples.two_names
      = (Returned acc2, w2)
    ∧ ∀ name, obj_get name acc1.2 = obj_get name acc2.2.
Proof.
  destruct (theme_content_independent_of_order Examples.host default_config
              Examples.paths ["/ws/a.png"; "/ws/dir1/x.png"]
              ["/ws/dir1/x.png"; "/ws/a.png"] Examples.two_names)
    as (acc1 & w1 & acc2 & w2 & H1 & H2 & _ & _ & _ & Hnames).
  - apply perm_swap.
  - intros src src' Hs Hs'.
    apply list_elem_of_In in Hs, Hs'. simpl in Hs, Hs'.
    destruct Hs as [<-|[<-|[]]]; destruct Hs' as [<-|[<-|[]]]; discriminate.
  - exists acc1, w1, acc2, w2. split; [exact H1|]. split; [exact H2|].
    apply Hnames. intros a b Ha Hb _ _.
    apply list_elem_of_In in Ha, Hb. simpl in Ha, Hb.
    destruct Ha as [<-|[<-|[]]]; destruct Hb as [<-|[<-|[]]];
      vm_compute; intros; congruence.
Defined.

(** ** Running the cycle again *)

Section Idempotence.
Context (h : Host) (cfg : Config) (paths : Paths).

Lemma not_written_thumbnail l src src' :
  src ∉ written_paths h paths l → src' ∈ l →
  src ≠ thumbnailPath_of h paths (generateIconId src').
Proof.
  intros Hw Hs' ->. apply Hw. unfold written_paths.
  do 2 apply list_elem_of_further. apply elem_of_app. left.
  unfold thumbnail_paths. apply list_elem_of_fmap. eauto.
Qed.

(** When no discovered file is a path the cycle writes, what the loop
    returns is the fold of the verdicts taken on the disk the cycle started
    from. *)
Lemma collectIcons_result w :
  (∀ src, src ∈ discovered h cfg (fs w) →
          src ∉ written_paths h paths (discovered h cfg (fs w))) →
  (collectIcons h cfg paths w).1
  = if bool_decide (is_Some (fs w !! outputIconsDir paths))
       || mkdirSync_succeeds h (fs w) (outputIconsDir paths)
    then Returned (fold_left (record_image h paths (rendered h cfg paths (fs w)))
                     (discovered h cfg (fs w)) ([], []))
    else Thrown "mkdirSync".
Proof.
  intros Hsrc. rewrite collectIcons_unfold.
  set (l := discovered h cfg (fs w)) in *. set (w0 := called _ id w).
  assert (∀ wa, (∀ src, src ∈ l → fs wa !! src = fs w !! src) →
    (processImages h cfg paths (getSupportedExtensions cfg) l wa).1
    = Returned (fold_left (record_image h paths (rendered h cfg paths (fs w)))
                  l ([], []))) as Hloop.
  { intros wa Hwa. unfold processImages.
    destruct (processImages_fold h cfg paths l ([], []) wa (fs w) Hwa)
      as (w' & ->); [|reflexivity].
    intros src src' Hs Hs'. eapply not_written_thumbnail; eauto. }
  pose proof (ensureOutputDir_run h paths w0) as Hdir.
  change (fs w0) with (fs w) in Hdir.
  case_bool_decide as Hpresent; simpl.
  - rewrite (bind_returned _ _ _ _ _ Hdir). apply Hloop. reflexivity.
  - destruct (mkdirSync_succeeds h (fs w) (outputIconsDir paths)).
    + rewrite (bind_returned _ _ _ _ _ Hdir). apply Hloop.
      intros src Hs. simpl. apply lookup_insert_ne.
      intros Heq. apply (Hsrc src Hs). rewrite <- Heq. apply list_elem_of_here.
    + rewrite (bind_thrown _ _ _ _ _ Hdir). reflexivity.
Qed.

Lemma descriptor_of_collect w :
  descriptor_of h cfg paths w
  = match (collectIcons h cfg paths w).1 with
    | Returned acc =>
        Some (JSON_stringify h (to_json (theme_of (getSupportedExtensions cfg) acc)))
    | Thrown _ => None
    end.
Proof.
  unfold descriptor_of, assembleIconTheme, bind.
  destruct (collectIcons h cfg paths w) as [[acc|e] w1]; reflexivity.
Qed.

(** What remains of a cycle once the loop has returned. *)
Lemma generateIconTheme_after_collect w acc wc :
  collectIcons h cfg paths w = (Returned acc, wc) →
  evolves (cycle_call h cfg paths true (discovered h cfg (fs w))) wc
          (generateIconTheme h cfg paths w).2.
Proof.
  intros Hc. unfold generateIconTheme, assembleIconTheme.
  rewrite (bind_returned _ _ w (theme_of (getSupportedExtensions cfg) acc) wc)
    by (rewrite (bind_returned _ _ _ _ _ Hc); reflexivity).
  apply stable_bind; [apply evolves_trans | apply persist_stable |].
  intros _. apply createDefaultIcons_stable.
Qed.

Lemma generateIconTheme_thrown_early w e wc :
  collectIcons h cfg paths w = (Thrown e, wc) →
  generateIconTheme h cfg paths w = (Thrown e, wc).
Proof.
  intros Hc. unfold generateIconTheme, assembleIconTheme.
  apply bind_thrown. apply bind_thrown. exact Hc.
Qed.

(** A cycle leaves the files it discovered as they were when none of them
    is a path it writes. *)
Lemma sources_untouched w src :
  src ∈ discovered h cfg (fs w) →
  src ∉ written_paths h paths (discovered h cfg (fs w)) →
  fs (generateIconTheme h cfg paths w).2 !! src = fs w !! src.
Proof.
  intros Hs Hw.
  destruct (generateIconTheme_evolves h cfg paths w) as (new & _ & HP & _ & Hf).
  destruct (decide (fs (generateIconTheme h cfg paths w).2 !! src = fs w !! src))
    as [Heq|Hne]; [exact Heq|].
  destruct (Hf src Hne) as (c & Hin & Ht). rewrite Forall_forall in HP.
  exfalso. apply Hw. unfold written_paths.
  destruct (cycle_call_target _ _ _ _ _ _ _ (HP c Hin) Ht) as [->|[->|[H|H]]].
  - apply list_elem_of_here.
  - apply list_elem_of_further, list_elem_of_here.
  - do 2 apply list_elem_of_further. apply elem_of_app. left. exact H.
  - do 2 apply list_elem_of_further. apply elem_of_app. right. exact H.
Qed.
End Idempotence.

(** C6, as stated, fails when the extension's own directory is the
    workspace folder: the first cycle writes its thumbnail and the default
    icons where the next search finds them, so the second cycle, run on the
    disk the first one left, discovers five files instead of one and hands
    a different descriptor to [writeFileSync]. *)
Lemma second_cycle_discovers_artifacts :
  let h := Examples.host_in_extension in
  let w := Examples.extension_workspace in
  let r := generateIconTheme h default_config Examples.paths w in
  r.1 = Returned ()
  ∧ discovered h default_config (fs w) = ["/ext/images/a.png"]
  ∧ List.length (discovered h default_config (fs r.2)) = 5%nat
  ∧ descriptor_of h default_config Examples.paths r.2
    ≠ descriptor_of h default_config Examples.paths w.
Proof.
  split; [vm_compute; reflexivity|]. split; [vm_compute; reflexivity|].
  split; [vm_compute; reflexivity|].
  intros Heq.
  assert (bool_decide
            (descriptor_of Examples.host_in_extension default_config
               Examples.paths
               (generateIconTheme Examples.host_in_extension default_config
                  Examples.paths Examples.extension_workspace).2
             = descriptor_of Examples.host_in_extension default_config
                 Examples.paths Examples.extension_workspace)
          = false) as Hne by (vm_compute; reflexivity).
  apply bool_decide_eq_false in Hne. contradiction.
Qed.

(** C6, amended.  Run a cycle, then another with the same configuration on
    the disk the first one left.  When the second search returns the same
    files in the same order and none of them is a path the cycle writes
    (output directory, descriptor, thumbnails, default icons), the
    descriptor the second cycle assembles is the same string as the one the
    first cycle assembled. *)
Theorem regeneration_idempotent h cfg paths w :
  let w1 := (generateIconTheme h cfg paths w).2 in
  discovered h cfg (fs w1) = discovered h cfg (fs w) →
  (∀ src, src ∈ discovered h cfg (fs w) →
          src ∉ written_paths h paths (discovered h cfg (fs w))) →
  descriptor_of h cfg paths w1 = descriptor_of h cfg paths w.
Proof.
  intros w1 Hdisc Hsrc.
  rewrite !descriptor_of_collect.
  rewrite (collectIcons_result h cfg paths w Hsrc).
  rewrite (collectIcons_result h cfg paths w1) by (rewrite Hdisc; exact Hsrc).
  rewrite Hdisc.
  assert (fold_left (record_image h paths (rendered h cfg paths (fs w1)))
            (discovered h cfg (fs w)) ([], [])
          = fold_left (record_image h paths (rendered h cfg paths (fs w)))
              (discovered h cfg (fs w)) ([], [])) as ->.
  { apply fold_left_record_image_ext. intros src Hs. unfold rendered.
    subst w1. rewrite (sources_untouched h cfg paths w src Hs (Hsrc src Hs)).
    reflexivity. }
  destruct (collectIcons_returns h cfg paths w)
    as [(e & wc & Hc & Hfs & _)|(acc & wc & Hc & _ & Hdir)].
  - assert (fs w1 = fs w) as ->; [|reflexivity].
    subst w1. rewrite (generateIconTheme_thrown_early h cfg paths w e wc Hc).
    exact Hfs.
  - assert (is_Some (fs w1 !! outputIconsDir paths)) as Hdir1.
    { destruct (generateIconTheme_after_collect h cfg paths w acc wc Hc)
        as (_ & _ & _ & Hk & _). apply Hk, Hdir. }
    rewrite (bool_decide_eq_true_2 _ Hdir1). simpl.
    pose proof (collectIcons_result h cfg paths w Hsrc) as Hres.
    rewrite Hc in Hres. simpl in Hres.
    destruct (bool_decide _ || mkdirSync_succeeds h (fs w) _);
      [reflexivity | discriminate Hres].
Qed.

(** The workspace [/ws] with one image, next to the extension. *)
Lemma regeneration_idempotent_witness :
  descriptor_of Examples.host default_config Examples.paths
    (generateIconTheme Examples.host default_config Examples.paths
       Examples.one_image).2
  = descriptor_of Examples.host default_config Examples.paths
      Examples.one_image.
Proof.
  apply regeneration_idempotent.
  - vm_compute. reflexivity.
  - intros src Hs. vm_compute in Hs.
    apply list_elem_of_singleton in Hs. subst src.
    intros Hin. apply list_elem_of_In in Hin. vm_compute in Hin.
    repeat (destruct Hin as [Hin|Hin]; [discriminate Hin|]). exact Hin.
Defined.

(** ** Debouncing *)

Section Debounce.
Context (h : Host) (tie : bool).
Implicit Types (s : Session) (e : Event).

Lemma scheduleIconRegeneration_spec s :
  timers_tidy s →
  let s' := scheduleIconRegeneration s in
  timers s' = [{| timer_id := next_timer s;
                  timer_due := clock s + quiet_interval |}]
  ∧ regenerateTimer s' = Some (next_timer s)
  ∧ clock s' = clock s ∧ started s' = started s ∧ running s' = running s
  ∧ watchPattern s' = watchPattern s ∧ config s' = config s.
Proof.
  intros [Hnil|(id & due & Ht & Hr & _)]; unfold scheduleIconRegeneration.
  - destruct (regenerateTimer s); simpl; rewrite Hnil; simpl; repeat split.
  - rewrite Hr. simpl. rewrite Ht. simpl. rewrite Nat.eqb_refl. simpl.
    repeat split.
Qed.

Lemma scheduleIconRegeneration_tidy s :
  timers_tidy s → timers_tidy (scheduleIconRegeneration s).
Proof.
  intros Hs. destruct (scheduleIconRegeneration_spec s Hs)
    as (Ht & Hr & Hc & _).
  right. exists (next_timer s), (clock s + quiet_interval)%N.
  split; [exact Ht|]. split; [exact Hr|]. rewrite Hc. lia.
Qed.

(** A notifying event is a call of [scheduleIconRegeneration], on the
    session itself or on the session with the new configuration. *)
Lemma handle_notifies s e :
  notifies h s e = true →
  ∃ s0,
    handle h tie e s = scheduleIconRegeneration s0
    ∧ timers s0 = timers s ∧ regenerateTimer s0 = regenerateTimer s
    ∧ clock s0 = clock s ∧ next_timer s0 = next_timer s
    ∧ started s0 = started s ∧ running s0 = running s
    ∧ watchPattern s0 = watchPattern s.
Proof.
  intros He.
  destruct e as [dt|p|p|p|[c|]| | | |]; simpl in He; try discriminate; simpl;
    unfold on_file_event; rewrite ?He;
    first [ exists s; repeat split; reflexivity
          | exists (with_config c s); repeat split; reflexivity ].
Qed.

(** A notification leaves exactly one timeout, due one quiet interval
    after it. *)
Lemma notify_spec s e :
  timers_tidy s → notifies h s e = true →
  let s' := handle h tie e s in
  timers_tidy s'
  ∧ timers s' = [{| timer_id := next_timer s;
                    timer_due := clock s + quiet_interval |}]
  ∧ regenerateTimer s' = Some (next_timer s)
  ∧ clock s' = clock s ∧ started s' = started s ∧ running s' = running s
  ∧ watchPattern s' = watchPattern s.
Proof.
  intros Hs He. simpl.
  destruct (handle_notifies s e He)
    as (s0 & -> & Ht0 & Hr0 & Hc0 & Hn0 & Hst0 & Hrun0 & Hw0).
  assert (timers_tidy s0) as Hs0.
  { unfold timers_tidy in *. rewrite Ht0, Hr0, Hc0. exact Hs. }
  destruct (scheduleIconRegeneration_spec s0 Hs0)
    as (Ht & Hr & Hc & Hst & Hrun & Hw & _).
  split; [apply scheduleIconRegeneration_tidy, Hs0|].
  rewrite Ht, Hr, Hc, Hst, Hrun, Hw, Hn0, Hc0. repeat split; assumption.
Qed.

(** Time passes over a session with one timeout pending. *)
Lemma elapse_spec s dt id due :
  timers s = [{| timer_id := id; timer_due := due |}] →
  regenerateTimer s = Some id → (clock s ≤ due)%N →
  let s' := elapse tie dt s in
  timers_tidy s'
  ∧ clock s' = (clock s + dt)%N
  ∧ started s' = (started s ++ fires tie due (clock s + dt))%list
  ∧ watchPattern s' = watchPattern s.
Proof.
  intros Ht Hr Hdue. cbv zeta. unfold elapse, fires. rewrite Ht.
  cbn [List.filter].
  change (due_by tie (clock s + dt) {| timer_id := id; timer_due := due |})
    with (if tie then (due <=? clock s + dt)%N else (due <? clock s + dt)%N).
  destruct (if tie then (due <=? clock s + dt)%N else (due <? clock s + dt)%N)
    eqn:Hfire; cbn [fold_left].
  - unfold timers_tidy, fire. simpl. rewrite Ht. simpl.
    rewrite Nat.eqb_refl. simpl.
    split; [left; reflexivity|]. split; [reflexivity|].
    split; [|reflexivity]. rewrite N.max_r by exact Hdue. reflexivity.
  - split; [|split; [reflexivity|split; [symmetry; apply app_nil_r|reflexivity]]].
    right. exists id, due. simpl. split; [exact Ht|]. split; [exact Hr|].
    destruct tie; [apply N.leb_gt in Hfire | apply N.ltb_ge in Hfire]; lia.
Qed.

Lemma elapse_idle s dt :
  timers s = [] →
  let s' := elapse tie dt s in
  timers_tidy s' ∧ clock s' = (clock s + dt)%N ∧ started s' = started s
  ∧ watchPattern s' = watchPattern s.
Proof.
  intros Ht. cbv zeta. unfold elapse. rewrite Ht. simpl.
  split; [left; exact Ht | repeat split].
Qed.

Lemma notifies_watchPattern s s' e :
  watchPattern s' = watchPattern s → notifies h s' e = notifies h s e.
Proof. intros Hw. destruct e; simpl; rewrite ?Hw; reflexivity. Qed.

Lemma run_spaced_cons d e es s :
  run h tie (spaced ((d, e) :: es)) s
  = run h tie (spaced es) (handle h tie e (elapse tie d s)).
Proof. reflexivity. Qed.

Lemma run_app es1 es2 s :
  run h tie (es1 ++ es2) s = run h tie es2 (run h tie es1 s).
Proof. unfold run. apply fold_left_app. Qed.

(** Notifications arriving after a notification at the current time. *)
Lemma run_spaced_after_notification es : ∀ s id,
  timers s = [{| timer_id := id; timer_due := clock s + quiet_interval |}] →
  regenerateTimer s = Some id →
  Forall (fun de => notifies h s de.2 = true) es →
  (∃ id', timers (run h tie (spaced es) s)
          = [{| timer_id := id';
                timer_due := clock (run h tie (spaced es) s) + quiet_interval |}]
          ∧ regenerateTimer (run h tie (spaced es) s) = Some id')
  ∧ clock (run h tie (spaced es) s) = (clock s + total es.*1)%N
  ∧ started (run h tie (spaced es) s)
    = (started s ++ fired tie (clock s) es.*1)%list
  ∧ watchPattern (run h tie (spaced es) s) = watchPattern s.
Proof.
  induction es as [|[d e] es IH]; intros s id Ht Hr Hn.
  - simpl. split; [eauto|]. split; [lia|].
    split; [symmetry; apply app_nil_r | reflexivity].
  - apply Forall_cons in Hn as [He Hn]. simpl in He.
    destruct (elapse_spec s d id _ Ht Hr) as (Htidy & Hc & Hst & Hw); [lia|].
    rewrite <- (notifies_watchPattern _ _ _ Hw) in He.
    destruct (notify_spec _ e Htidy He)
      as (_ & Ht2 & Hr2 & Hc2 & Hst2 & _ & Hw2).
    rewrite run_spaced_cons.
    set (s2 := handle h tie e (elapse tie d s)) in *.
    destruct (IH s2 (next_timer (elapse tie d s))) as (Hp & Hc3 & Hst3 & Hw3).
    + rewrite Ht2, Hc2. reflexivity.
    + exact Hr2.
    + eapply Forall_impl; [exact Hn|]. intros de Hde. simpl in *.
      rewrite <- Hde. apply notifies_watchPattern. congruence.
    + split; [exact Hp|]. rewrite Hc3, Hst3, Hw3, Hst2, Hst, Hc2, Hc.
      change (total ((d, e) :: es).*1) with (d + total es.*1)%N.
      change (fired tie (clock s) ((d, e) :: es).*1)
        with (fires tie (clock s + quiet_interval) (clock s + d)
              ++ fired tie (clock s + d) es.*1)%list.
      split; [lia|]. split; [|congruence].
      symmetry. apply app_assoc.
Qed.
End Debounce.

(** *** The calls a train of notifications causes *)

Lemma arrivals_ge ds : ∀ t a, a ∈ arrivals t ds → (t ≤ a)%N.
Proof.
  induction ds as [|d ds IH]; intros t a Ha; simpl in Ha.
  - apply elem_of_nil in Ha as [].
  - apply elem_of_cons in Ha as [->|Ha]; [lia|].
    apply IH in Ha. lia.
Qed.

Lemma fires_early tie due t : (t < due)%N → fires tie due t = [].
Proof.
  intros Hlt. unfold fires.
  destruct tie; [rewrite (proj2 (N.leb_gt _ _)) | rewrite (proj2 (N.ltb_ge _ _))];
    [reflexivity | lia | reflexivity | lia].
Qed.

Lemma fires_late tie due t : (due < t)%N → fires tie due t = [due].
Proof.
  intros Hlt. unfold fires.
  destruct tie; [rewrite (proj2 (N.leb_le _ _)) | rewrite (proj2 (N.ltb_lt _ _))];
    [reflexivity | lia | reflexivity | lia].
Qed.

Lemma fires_inv tie due t u : u ∈ fires tie due t → u = due ∧ (due ≤ t)%N.
Proof.
  unfold fires.
  destruct tie; [destruct (N.leb_spec due t) | destruct (N.ltb_spec due t)];
    intros Hu; try (apply elem_of_nil in Hu as []);
    apply list_elem_of_singleton in Hu; split; [assumption | lia ..].
Qed.

(** Gaps all shorter than the quiet interval: no call in between. *)
Lemma fired_burst tie ds : ∀ t,
  Forall (fun d => (d < quiet_interval)%N) ds → fired tie t ds = [].
Proof.
  induction ds as [|d ds IH]; intros t Hds; simpl; [reflexivity|].
  apply Forall_cons in Hds as [Hd Hds].
  rewrite fires_early by lia. apply IH, Hds.
Qed.

(** Gaps all longer than the quiet interval: one call per notification. *)
Lemma fired_spaced tie ds : ∀ t,
  Forall (fun d => (quiet_interval < d)%N) ds →
  (fired tie t ds ++ [(t + total ds + quiet_interval)%N])%list
  = map (fun a => (a + quiet_interval)%N) (t :: arrivals t ds).
Proof.
  induction ds as [|d ds IH]; intros t Hds.
  - simpl. f_equal. lia.
  - apply Forall_cons in Hds as [Hd Hds].
    change (fired tie t (d :: ds))
      with (fires tie (t + quiet_interval) (t + d) ++ fired tie (t + d) ds)%list.
    change (total (d :: ds)) with (d + total ds)%N.
    rewrite fires_late by lia.
    change (arrivals t (d :: ds)) with ((t + d)%N :: arrivals (t + d) ds).
    rewrite map_cons. rewrite <- IH by exact Hds.
    simpl. do 3 f_equal. lia.
Qed.

(** Whatever the gaps: a call is made one quiet interval after some
    notification, and no notification falls in between. *)
Lemma fired_quiet tie ds : ∀ t u,
  u ∈ (fired tie t ds ++ [(t + total ds + quiet_interval)%N])%list →
  ∃ a, a ∈ t :: arrivals t ds ∧ u = (a + quiet_interval)%N
       ∧ ∀ a', a' ∈ t :: arrivals t ds → ¬ (a < a' ∧ a' < u)%N.
Proof.
  induction ds as [|d ds IH]; intros t u Hu.
  - simpl in Hu. apply list_elem_of_singleton in Hu. exists t.
    split; [apply list_elem_of_here|]. split; [lia|].
    intros a' Ha'. apply list_elem_of_singleton in Ha'. lia.
  - change (fired tie t (d :: ds))
      with (fires tie (t + quiet_interval) (t + d) ++ fired tie (t + d) ds)%list
      in Hu.
    change (total (d :: ds)) with (d + total ds)%N in Hu.
    change (arrivals t (d :: ds)) with ((t + d)%N :: arrivals (t + d) ds).
    rewrite <- app_assoc in Hu. apply elem_of_app in Hu as [Hu|Hu].
    + apply fires_inv in Hu as [-> Hle]. exists t.
      split; [apply list_elem_of_here|]. split; [reflexivity|].
      intros a' Ha'. apply elem_of_cons in Ha' as [->|Ha']; [lia|].
      apply elem_of_cons in Ha' as [->|Ha']; [lia|].
      apply arrivals_ge in Ha'. lia.
    + replace (t + (d + total ds) + quiet_interval)%N
        with (t + d + total ds + quiet_interval)%N in Hu by lia.
      destruct (IH (t + d)%N u Hu) as (a & Ha & -> & Hq).
      exists a. split; [apply list_elem_of_further, Ha|].
      split; [reflexivity|].
      intros a' Ha'. apply elem_of_cons in Ha' as [->|Ha']; [|apply Hq, Ha'].
      assert (t + d ≤ a)%N.
      { apply elem_of_cons in Ha as [->|Ha]; [lia|].
        apply arrivals_ge in Ha. lia. }
      lia.
Qed.

(** C5.  A notification leaves exactly one timeout in the queue, due 500 ms
    after it, whatever was pending.  From a session with no timeout
    pending, let notifications arrive with the given gaps and then more than
    500 ms pass: every call of [generateIconTheme] made is 500 ms after a
    notification with no notification in between; when all gaps are shorter
    than 500 ms exactly one call is made, 500 ms after the last
    notification; when all gaps are longer than 500 ms there is one call
    per notification, 500 ms after each. *)
Theorem debounce_trailing_edge h tie s d0 e0 es rest :
  timers s = [] →
  Forall (fun de => notifies h s de.2 = true) ((d0, e0) :: es) →
  (quiet_interval < rest)%N →
  let gaps := d0 :: es.*1 in
  let times := arrivals (clock s) gaps in
  let s' := run h tie (spaced ((d0, e0) :: es) ++ [Elapse rest]) s in
  quiet_interval = 500%N
  ∧ (∀ s1 e1,
       timers_tidy s1 → notifies h s1 e1 = true →
       timers (handle h tie e1 s1)
       = [{| timer_id := next_timer s1;
             timer_due := clock s1 + quiet_interval |}])
  ∧ ∃ new,
      started s' = (started s ++ new)%list
      ∧ (Forall (fun de => (de.1 < quiet_interval)%N) es →
         new = [(clock s + total gaps + quiet_interval)%N])
      ∧ (Forall (fun de => (quiet_interval < de.1)%N) es →
         new = map (fun t => (t + quiet_interval)%N) times
         ∧ List.length new = List.length ((d0, e0) :: es))
      ∧ (∀ u, u ∈ new →
           ∃ t, t ∈ times ∧ u = (t + quiet_interval)%N
                ∧ ∀ t', t' ∈ times → ¬ (t < t' ∧ t' < u)%N).
Proof.
  intros Hidle Hn Hrest gaps times s'.
  split; [reflexivity|]. split; [intros s1 e1 H1 He1; apply notify_spec; assumption|].
  apply Forall_cons in Hn as [He0 Hn]. simpl in He0.
  destruct (elapse_idle tie s d0 Hidle) as (Htidy0 & Hc0 & Hst0 & Hw0).
  rewrite <- (notifies_watchPattern h _ _ _ Hw0) in He0.
  destruct (notify_spec h tie _ e0 Htidy0 He0)
    as (_ & Ht1 & Hr1 & Hc1 & Hst1 & _ & Hw1).
  subst s'. rewrite run_app, run_spaced_cons.
  set (s1 := handle h tie e0 (elapse tie d0 s)) in *.
  destruct (run_spaced_after_notification h tie es s1
              (next_timer (elapse tie d0 s)))
    as ((id2 & Ht2 & Hr2) & Hc2 & Hst2 & Hw2).
  { rewrite Ht1, Hc1. reflexivity. }
  { exact Hr1. }
  { eapply Forall_impl; [exact Hn|]. intros de Hde. simpl in *.
    rewrite <- Hde. apply notifies_watchPattern. congruence. }
  set (s2 := run h tie (spaced es) s1) in *.
  change (run h tie [Elapse rest] s2) with (elapse tie rest s2).
  destruct (elapse_spec tie s2 rest id2 _ Ht2 Hr2) as (_ & _ & Hst3 & _); [lia|].
  rewrite fires_late in Hst3 by lia.
  assert (clock s1 = clock s + d0)%N as Hclock1 by congruence.
  exists (fired tie (clock s1) es.*1
          ++ [(clock s1 + total es.*1 + quiet_interval)%N])%list.
  split; [|split; [|split]].
  - rewrite Hst3, Hst2, Hst1, Hst0, Hc2. symmetry. apply app_assoc.
  - intros Hburst. rewrite fired_burst.
    + simpl. f_equal. subst gaps. change (total (d0 :: es.*1)) with (d0 + total es.*1)%N.
      lia.
    + apply Forall_fmap. exact Hburst.
  - intros Hspaced. rewrite fired_spaced by (apply Forall_fmap; exact Hspaced).
    subst times gaps.
    change (arrivals (clock s) (d0 :: es.*1))
      with ((clock s + d0)%N :: arrivals (clock s + d0) es.*1).
    rewrite Hclock1. split; [reflexivity|].
    rewrite length_map. simpl. f_equal.
    clear. generalize (clock s + d0)%N.
    induction es as [|[d e] es IH]; intros t; simpl; [reflexivity|].
    f_equal. apply IH.
  - intros u Hu. subst times gaps.
    change (arrivals (clock s) (d0 :: es.*1))
      with ((clock s + d0)%N :: arrivals (clock s + d0) es.*1).
    rewrite <- Hclock1. apply (fired_quiet tie). exact Hu.
Qed.

(** Three notifications of three kinds within 500 ms of each other after
    activation: one call, 500 ms after the last of them. *)
Lemma debounce_trailing_edge_witness :
  started
    (run Examples.host true
       (spaced [ (10%N, WorkspaceFoldersChanged);
                 (100%N, ConfigurationChanged (Some default_config));
                 (200%N, FileChanged "/ws/a.png") ]
        ++ [Elapse 501]) (activate default_config))
  = [0%N; 810%N].
Proof.
  destruct (debounce_trailing_edge Examples.host true (activate default_config)
              10 WorkspaceFoldersChanged
              [ (100%N, ConfigurationChanged (Some default_config));
                (200%N, FileChanged "/ws/a.png") ] 501)
    as (_ & _ & new & Hstarted & Hburst & _).
  - reflexivity.
  - repeat constructor.
  - reflexivity.
  - rewrite Hstarted, Hburst; [reflexivity|].
    repeat constructor.
Defined.

(** ** Cycles in flight *)

(** C3, as stated, fails: two refresh commands, the second while the cycle
    of the first has not settled, leave two cycles in flight; so does a
    timeout that runs while the cycle of a refresh command is in flight.
    When the cycles settle no further cycle starts. *)
Lemma two_cycles_in_flight :
  let s0 := activate default_config in
  let twice := run Examples.host true [RefreshCommand; RefreshCommand] s0 in
  let timed :=
    run Examples.host true
      [WorkspaceFoldersChanged; Elapse 400; RefreshCommand; Elapse 200] s0 in
  running s0 = 0
  ∧ running twice = 2 ∧ started twice = [0%N; 0%N; 0%N]
  ∧ running timed = 2 ∧ started timed = [0%N; 400%N; 500%N]
  ∧ started (run Examples.host true [Settled; Settled; Elapse 10000] twice)
    = started twice.
Proof. repeat split; reflexivity. Qed.

(** C3, amended.  Nothing guards a call of [generateIconTheme]: the refresh
    command and the timeout callback each start a cycle at once and add one
    to the cycles in flight, whatever their number; a cycle that settles
    starts no other; and no other event starts a cycle. *)
Theorem triggers_start_cycles_at_once h tie s :
  (running (handle h tie RefreshCommand s) = S (running s)
   ∧ started (handle h tie RefreshCommand s) = (started s ++ [clock s])%list)
  ∧ (∀ tm,
       running (fire tm s) = S (running s)
       ∧ started (fire tm s)
         = (started s ++ [N.max (clock s) (timer_due tm)])%list)
  ∧ (running (handle h tie Settled s) = pred (running s)
     ∧ started (handle h tie Settled s) = started s)
  ∧ ∀ e,
      match e with
      | RefreshCommand | Elapse _ => True
      | _ =>
          started (handle h tie e s) = started s
          ∧ (e ≠ Settled → running (handle h tie e s) = running s)
      end.
Proof.
  split; [split; reflexivity|]. split; [intros tm; split; reflexivity|].
  split; [split; reflexivity|].
  assert (∀ s0, started (scheduleIconRegeneration s0) = started s0
                ∧ running (scheduleIconRegeneration s0) = running s0) as Hs.
  { intros s0. unfold scheduleIconRegeneration.
    destruct (regenerateTimer s0); split; reflexivity. }
  assert (∀ p,
            started (on_file_event h p s) = started s
            ∧ (FileCreated p ≠ Settled →
               running (on_file_event h p s) = running s)) as Hf.
  { intros p. unfold on_file_event.
    destruct (glob_matches h (watchPattern s) p);
      [split; [apply Hs | intros _; apply Hs] | split; trivial]. }
  intros [dt|p|p|p|[c|]| | | |]; try exact I; cbn [handle].
  - destruct (Hf p) as [H1 H2]. split; [exact H1 | intros _; apply H2; discriminate].
  - destruct (Hf p) as [H1 H2]. split; [exact H1 | intros _; apply H2; discriminate].
  - destruct (Hf p) as [H1 H2]. split; [exact H1 | intros _; apply H2; discriminate].
  - destruct (Hs (with_config c s)) as [H1 H2]. rewrite H1, H2.
    split; [reflexivity | intros _; reflexivity].
  - split; [reflexivity | intros _; reflexivity].
  - destruct (Hs s) as [H1 H2]. split; [exact H1 | intros _; exact H2].
  - split; [reflexivity | intros _; reflexivity].
  - split; [reflexivity | intros Hne; congruence].
Qed.

(** ** The watcher *)

Section Watcher.
Context (h : Host) (tie : bool).

Lemma handle_tidy e s : timers_tidy s → timers_tidy (handle h tie e s).
Proof.
  intros Hs.
  destruct e as [dt|p|p|p|[c|]| | | |]; simpl; unfold on_file_event;
    try destruct (glob_matches h (watchPattern s) p);
    try exact Hs;
    try (apply scheduleIconRegeneration_tidy; exact Hs).
  destruct Hs as [Hnil|(id & due & Ht & Hr & Hdue)].
  - apply elapse_idle, Hnil.
  - eapply elapse_spec; eassumption.
Qed.

Lemma fold_fire_watchPattern l : ∀ s,
  watchPattern (fold_left (fun s tm => fire tm s) l s) = watchPattern s.
Proof.
  induction l as [|tm l IH]; intros s; simpl; [reflexivity|].
  rewrite IH. reflexivity.
Qed.

Lemma handle_watchPattern e s :
  watchPattern (handle h tie e s) = watchPattern s.
Proof.
  assert (∀ s0, watchPattern (scheduleIconRegeneration s0) = watchPattern s0)
    as Hs.
  { intros s0. unfold scheduleIconRegeneration.
    destruct (regenerateTimer s0); reflexivity. }
  assert (∀ p, watchPattern (on_file_event h p s) = watchPattern s) as Hf.
  { intros p. unfold on_file_event.
    destruct (glob_matches h (watchPattern s) p); [apply Hs | reflexivity]. }
  destruct e as [dt|p|p|p|[c|]| | | |]; cbn [handle];
    try apply Hf; try reflexivity.
  - unfold elapse. apply (fold_fire_watchPattern _ s).
  - rewrite Hs. reflexivity.
  - apply Hs.
Qed.

Lemma run_invariants es : ∀ s,
  timers_tidy s →
  timers_tidy (run h tie es s)
  ∧ watchPattern (run h tie es s) = watchPattern s.
Proof.
  induction es as [|e es IH]; intros s Hs; [split; trivial|].
  change (run h tie (e :: es) s) with (run h tie es (handle h tie e s)).
  destruct (IH (handle h tie e s) (handle_tidy e s Hs)) as (Ht & Hw).
  split; [exact Ht|]. rewrite Hw. apply handle_watchPattern.
Qed.
End Watcher.




(** * Further properties *)

(** ** Identifiers and paths *)

Lemma replace_non_alnum_length s :
  String.length (replace_non_alnum s) = String.length s.
Proof. induction s as [|c s IH]; simpl; congruence. Qed.

Lemma replace_non_alnum_chars s : identifier_chars (replace_non_alnum s) = true.
Proof.
  induction s as [|c s IH]; simpl; [reflexivity|]. rewrite IH, andb_true_r.
  destruct (is_alnum c) eqn:Hc; [rewrite Hc|]; reflexivity.
Qed.

Lemma identifier_chars_mentions c s :
  identifier_chars s = true → is_alnum c = false → c ≠ "_"%char →
  mentions c s = false.
Proof.
  intros Hs Hc Hu. induction s as [|a s IH]; simpl in *; [reflexivity|].
  apply andb_true_iff in Hs as [Ha Hs]. rewrite (IH Hs), orb_false_r.
  apply Ascii.eqb_neq. intros ->.
  rewrite Hc in Ha. simpl in Ha. apply Ascii.eqb_eq in Ha. contradiction.
Qed.

(** X1.  An identifier is [img_] followed by as many characters as the path
    has, all of them letters, digits or underscores; so it holds no slash,
    no backslash and no dot, and the thumbnail name made from it names a
    file directly in the output directory. *)
Theorem generateIconId_shape filePath :
  String.prefix "img_" (generateIconId filePath) = true
  ∧ String.length (generateIconId filePath) = 4 + String.length filePath
  ∧ identifier_chars (generateIconId filePath) = true
  ∧ mentions "/"%char (generateIconId filePath) = false
  ∧ mentions "\"%char (generateIconId filePath) = false
  ∧ mentions "."%char (generateIconId filePath) = false.
Proof.
  assert (identifier_chars (generateIconId filePath) = true) as Hid.
  { unfold generateIconId. simpl. apply replace_non_alnum_chars. }
  split; [unfold generateIconId; simpl; destruct (replace_non_alnum filePath); reflexivity|].
  split; [unfold generateIconId; simpl; do 4 f_equal;
          apply replace_non_alnum_length|].
  split; [exact Hid|].
  repeat split; apply identifier_chars_mentions;
    try exact Hid; try reflexivity; discriminate.
Qed.

Lemma replace_non_alnum_alike a : ∀ b,
  replace_non_alnum a = replace_non_alnum b ↔ alike a b = true.
Proof.
  induction a as [|x a IH]; intros [|y b]; simpl;
    try (split; [discriminate | discriminate]); [split; reflexivity|].
  rewrite andb_true_iff, <- IH. split.
  - intros Heq. injection Heq as Hc Hs. split; [|exact Hs].
    destruct (is_alnum x) eqn:Hx, (is_alnum y) eqn:Hy; simpl.
    + subst y. rewrite Ascii.eqb_refl. reflexivity.
    + subst x. discriminate Hx.
    + subst y. discriminate Hy.
    + apply orb_true_r.
  - intros [Hc Hs]. rewrite Hs. f_equal.
    apply orb_true_iff in Hc as [Hc|Hc].
    + apply Ascii.eqb_eq in Hc. subst y. reflexivity.
    + apply andb_true_iff in Hc as [Hx Hy].
      apply negb_true_iff in Hx, Hy. rewrite Hx, Hy. reflexivity.
Qed.

(** X2.  Two paths receive the same identifier exactly when they have the
    same length and agree at every position where either has a letter or a
    digit; in particular a path of letters and digits only shares its
    identifier with no other path. *)
Theorem generateIconId_collides_iff a b :
  (generateIconId a = generateIconId b ↔ alike a b = true)
  ∧ (identifier_chars a = true → mentions "_"%char a = false →
     generateIconId a = generateIconId b → a = b).
Proof.
  assert (generateIconId a = generateIconId b ↔ alike a b = true) as Hiff.
  { rewrite generateIconId_eq_iff. apply replace_non_alnum_alike. }
  split; [exact Hiff|]. intros Hid Hu Heq. apply Hiff in Heq. clear Hiff.
  revert b Heq. induction a as [|x a IH]; intros [|y b] Heq; simpl in *;
    try discriminate; [reflexivity|].
  apply andb_true_iff in Hid as [Hx Hid].
  apply orb_false_iff in Hu as [Hxu Hu].
  apply andb_true_iff in Heq as [Hc Heq].
  rewrite (IH Hid Hu b Heq). f_equal.
  rewrite Hxu, orb_false_r in Hx. rewrite Hx in Hc. simpl in Hc.
  rewrite orb_false_r in Hc. apply Ascii.eqb_eq, Hc.
Qed.

(** A hyphen and an underscore collide; a path without punctuation does not. *)
Lemma generateIconId_collides_iff_witness :
  generateIconId "a-b" = generateIconId "a_b" ∧ "ab1" = "ab1".
Proof.
  split.
  - apply (proj2 (proj1 (generateIconId_collides_iff "a-b" "a_b"))). reflexivity.
  - apply (proj2 (generateIconId_collides_iff "ab1" "ab1")); reflexivity.
Defined.

Lemma replace_backslashes_clean s : mentions "\"%char (replace_backslashes s) = false.
Proof.
  induction s as [|c s IH]; simpl; [reflexivity|]. rewrite IH, orb_false_r.
  destruct (Ascii.eqb c "\"%char) eqn:Hc; [reflexivity | exact Hc].
Qed.

(** ** The default file extensions *)

Lemma default_fileExtensions_fold k exts : ∀ acc,
  (∀ k' v, obj_get k' acc = Some v → v = "_file") →
  obj_get k
    (fold_left
       (fun fileExtensions ext =>
          if obj_missing ext fileExtensions
          then obj_set ext "_file" fileExtensions
          else fileExtensions) exts acc)
  = match obj_get k acc with
    | Some v => Some v
    | None =>
        if includes exts k && negb (includes object_prototype_keys k)
        then Some "_file" else None
    end.
Proof.
  set (P := includes object_prototype_keys).
  assert (P "__proto__" = true) as Hproto by reflexivity.
  induction exts as [|e exts IH]; intros acc Hacc; cbn [fold_left].
  - change (includes [] k) with false. destruct (obj_get k acc); reflexivity.
  - assert (obj_missing e acc
            = match obj_get e acc with
              | Some _ => false
              | None => negb (P e)
              end) as Hmiss.
    { unfold obj_missing. destruct (obj_get e acc) as [v|] eqn:He; [|reflexivity].
      rewrite (Hacc _ _ He). reflexivity. }
    rewrite IH.
    + change (includes (e :: exts) k) with (String.eqb k e || includes exts k).
      rewrite Hmiss. destruct (obj_get e acc) as [v|] eqn:He.
      * destruct (String.eqb_spec k e) as [->|Hne]; [rewrite He|]; reflexivity.
      * destruct (P e) eqn:Hp; cbn [negb].
        -- destruct (String.eqb_spec k e) as [->|Hne]; [|reflexivity].
           rewrite He, Hp. cbn [negb]. rewrite andb_false_r. reflexivity.
        -- rewrite obj_get_set.
           assert (String.eqb e "__proto__" = false) as ->.
           { apply String.eqb_neq. intros ->. congruence. }
           cbn [negb andb].
           destruct (String.eqb_spec k e) as [->|Hne]; [|reflexivity].
           rewrite He, Hp. reflexivity.
    + intros k' v. destruct (obj_missing e acc); [|apply Hacc].
      rewrite obj_get_set.
      destruct (negb _ && String.eqb k' e); [congruence | apply Hacc].
Qed.

(** X3.  [fileExtensions] maps to [_file] exactly the configured extensions
    that are not names a plain object inherits ([constructor], [toString],
    [__proto__] and the like), for which the test [!fileExtensions[ext]]
    fails; a repeated extension is entered once. *)
Theorem default_fileExtensions_lookup exts k :
  obj_get k (default_fileExtensions exts)
  = (if includes exts k && negb (includes object_prototype_keys k)
     then Some "_file" else None)
  ∧ NoDup (obj_keys (default_fileExtensions exts)).
Proof.
  split.
  - unfold default_fileExtensions. rewrite default_fileExtensions_fold;
      [reflexivity | discriminate].
  - unfold default_fileExtensions.
    assert (∀ acc : Obj string, NoDup (obj_keys acc) →
      NoDup (obj_keys
        (fold_left
           (fun fileExtensions ext =>
              if obj_missing ext fileExtensions
              then obj_set ext "_file" fileExtensions
              else fileExtensions) exts acc))) as H.
    { induction exts as [|e exts IH]; intros acc Hnd; simpl; [exact Hnd|].
      apply IH. destruct (obj_missing e acc); [apply obj_set_NoDup|]; exact Hnd. }
    apply H. apply NoDup_nil_2.
Qed.

(** ** Paths in the descriptor *)

(** X4.  Every [iconPath] of a theme a cycle assembles is free of
    backslashes: the three default paths are, and the path of an image has
    its backslashes turned into slashes whatever [path.relative] returns. *)
Theorem iconPaths_have_no_backslash h cfg paths w t w1 iconId def :
  assembleIconTheme h cfg paths w = (Returned t, w1) →
  obj_get iconId (iconDefinitions t) = Some def →
  mentions "\"%char (iconPath def) = false.
Proof.
  intros Hrun Hget.
  destruct (theme_definition_origin _ _ _ _ _ _ _ _ Hrun Hget)
    as [Hdef|(_ & -> & _)].
  - unfold default_iconDefinitions in Hdef. simpl in Hdef.
    repeat match type of Hdef with
           | (if ?c then _ else _) = _ => destruct c
           end;
      try discriminate; injection Hdef as <-; reflexivity.
  - apply replace_backslashes_clean.
Qed.

(** The image of the workspace with one image. *)
Lemma iconPaths_have_no_backslash_witness :
  ∃ def,
    mentions "\"%char (iconPath def) = false
    ∧ iconPath def = "img__ws_a_png.png".
Proof.
  exists {| iconPath := "img__ws_a_png.png" |}. split; [|reflexivity].
  eapply (iconPaths_have_no_backslash Examples.host default_config
            Examples.paths Examples.one_image _ _ "img__ws_a_png").
  - vm_compute. reflexivity.
  - reflexivity.
Defined.

(** ** The render calls of the loop *)

Section Renders.
Context (h : Host) (cfg : Config) (paths : Paths).

Lemma for_of_processImage_calls exts l : ∀ acc w,
  ∃ acc' w',
    for_of l (processImage h cfg paths exts) acc w = (Returned acc', w')
    ∧ calls w'
      = (calls w
         ++ map (render_call h cfg paths)
              (List.filter (fun src => includes exts (ext_of h src)) l))%list.
Proof.
  induction l as [|x l IH]; intros acc w; cbn [for_of List.filter].
  - exists acc, w. split; [reflexivity|]. simpl. symmetry. apply app_nil_r.
  - unfold processImage at 1.
    destruct (includes exts (ext_of h x)) eqn:Hx; cbn [negb].
    + unfold bind at 1. unfold bind at 1. unfold generateThumbnail at 1.
      set (o := sharp_resize_toFile h _ _ _).
      set (w1 := called _ (sharp_effect _ o) w).
      assert (∀ acc1, ∃ acc' w',
                for_of l (processImage h cfg paths exts) acc1 w1
                = (Returned acc', w')
                ∧ calls w'
                  = (calls w
                     ++ map (render_call h cfg paths)
                          (x :: List.filter
                                  (fun src => includes exts (ext_of h src)) l))%list)
        as Hrest.
      { intros acc1. destruct (IH acc1 w1) as (acc' & w' & Hrun & Hcalls).
        exists acc', w'. split; [exact Hrun|]. rewrite Hcalls.
        subst w1. simpl. rewrite <- app_assoc. reflexivity. }
      destruct (resolved o); apply Hrest.
    + unfold bind at 1. apply IH.
Qed.
End Renders.

(** X5.  The loop never throws and makes exactly one render call for each
    discovered file whose lower-cased extension is configured, in the order
    of discovery and whatever the earlier renders gave: a file that fails
    to render does not end the batch, and a file of another extension is
    not rendered at all. *)
Theorem one_render_per_supported_file h cfg paths l w :
  ∃ acc w',
    processImages h cfg paths (getSupportedExtensions cfg) l w
    = (Returned acc, w')
    ∧ calls w'
      = (calls w
         ++ map (render_call h cfg paths)
              (List.filter (supported h cfg) l))%list.
Proof. apply for_of_processImage_calls. Qed.

(** ** Failures of a cycle *)

Section Failures.
Context (h : Host) (cfg : Config) (paths : Paths).

Lemma createDefaultIcon_run p rgb w :
  ∃ w',
    createDefaultIcon h cfg p rgb w = (Returned (), w')
    ∧ (∀ q, q ≠ p → fs w' !! q = fs w !! q)
    ∧ (is_Some (fs w !! p) → fs w' = fs w).
Proof.
  unfold createDefaultIcon.
  rewrite (bind_returned _ _ _ _ _ (existsSync_run _ w)).
  case_bool_decide as Hp.
  - exists w. split; [reflexivity|]. split; reflexivity.
  - eexists. split; [reflexivity|]. simpl. split; [|contradiction].
    intros q Hq.
    destruct (decide (sharp_effect p (sharp_create_toFile h (getIconSize cfg) rgb p)
                        (fs w) !! q = fs w !! q)) as [Heq|Hne]; [exact Heq|].
    apply sharp_effect_changes in Hne. congruence.
Qed.


Lemma createDefaultIcons_run w :
  ∃ w',
    createDefaultIcons h cfg paths w = (Returned (), w')
    ∧ ∀ q, q ∉ default_icon_paths h paths ∨ is_Some (fs w !! q) →
           fs w' !! q = fs w !! q.
Proof.
  unfold createDefaultIcons.
  destruct (createDefaultIcon_run (defaultIconPath h paths) (180, 180, 180)%Z w)
    as (w1 & H1 & Hf1 & Hk1).
  rewrite (bind_returned _ _ _ _ _ H1).
  destruct (createDefaultIcon_run (defaultFolderPath h paths) (220, 180, 80)%Z w1)
    as (w2 & H2 & Hf2 & Hk2).
  rewrite (bind_returned _ _ _ _ _ H2).
  destruct (createDefaultIcon_run (defaultFolderOpenPath h paths)
              (240, 200, 100)%Z w2) as (w3 & H3 & Hf3 & Hk3).
  exists w3. split; [exact H3|]. intros q Hq.
  assert (∀ p wa wb,
            p ∈ default_icon_paths h paths →
            (∀ q', q' ≠ p → fs wb !! q' = fs wa !! q') →
            (is_Some (fs wa !! p) → fs wb = fs wa) →
            fs wa !! q = fs w !! q → fs wb !! q = fs w !! q) as Hstep.
  { intros p wa wb Hp Hf Hk Hq'. destruct (decide (q = p)) as [->|Hne].
    - destruct Hq as [Hq|Hq]; [contradiction|].
      rewrite Hk; [exact Hq' | rewrite Hq'; exact Hq].
    - rewrite Hf by exact Hne. exact Hq'. }
  unfold default_icon_paths in Hstep.
  eapply Hstep; [| exact Hf3 | exact Hk3 |].
  { do 2 apply list_elem_of_further. apply list_elem_of_here. }
  eapply Hstep; [| exact Hf2 | exact Hk2 |].
  { apply list_elem_of_further, list_elem_of_here. }
  eapply Hstep; [| exact Hf1 | exact Hk1 | reflexivity].
  apply list_elem_of_here.
Qed.
End Failures.


(** X7.  [createDefaultIcons] never throws, changes no path other than the
    three default icons, and leaves a default icon that is already on disk
    exactly as it is: the icon is made once and kept, also when the icon
    size has changed since. *)
Theorem createDefaultIcons_keeps_existing h cfg paths w :
  ∃ w',
    createDefaultIcons h cfg paths w = (Returned (), w')
    ∧ (∀ q, q ∉ default_icon_paths h paths → fs w' !! q = fs w !! q)
    ∧ (∀ q, is_Some (fs w !! q) → fs w' !! q = fs w !! q).
Proof.
  destruct (createDefaultIcons_run h cfg paths w) as (w' & Hrun & Hq).
  exists w'. split; [exact Hrun|]. split; intros q H; apply Hq; auto.
Qed.

(** With the icon size now 32, the default icon of an earlier cycle stays
    as it was. *)
Lemma createDefaultIcons_keeps_existing_witness :
  fs (createDefaultIcons Examples.host (Examples.with_iconSize 32)
        Examples.paths Cases.with_default_icon).2
    !! "/ext/out/icons/default-file.png"
  = Some (File "IMG earlier").
Proof.
  destruct (createDefaultIcons_keeps_existing Examples.host
              (Examples.with_iconSize 32) Examples.paths
              Cases.with_default_icon) as (w' & Hrun & _ & Hkeep).
  rewrite Hrun. simpl. rewrite Hkeep; [reflexivity|].
  vm_compute. eauto.
Defined.

(** ** What the descriptor holds *)

Lemma obj_keys_spread_prefix {V} (o : Obj V) : ∀ base,
  ∃ rest, obj_keys (obj_spread base o) = (obj_keys base ++ rest)%list.
Proof.
  unfold obj_spread. induction o as [|[k v] o IH]; intros base; simpl.
  - exists []. symmetry. apply app_nil_r.
  - destruct (IH (obj_define k v base)) as (rest & ->).
    rewrite obj_keys_define. case_bool_decide.
    + exists rest. reflexivity.
    + exists (k :: rest). rewrite <- app_assoc. reflexivity.
Qed.

(** X8.  In every theme a cycle of extension.ts assembles, [_file],
    [_folder] and [_folder_open] are the first three definitions, with
    their fixed paths, and [file], [folder] and [folderExpanded] name them:
    no image can take their place, since an image's identifier starts with
    [img_]. *)
Theorem default_definitions_always_present h cfg paths w t w1 :
  assembleIconTheme h cfg paths w = (Returned t, w1) →
  obj_get "_file" (iconDefinitions t)
  = Some {| iconPath := "./default-file.png" |}
  ∧ obj_get "_folder" (iconDefinitions t)
    = Some {| iconPath := "./default-folder.png" |}
  ∧ obj_get "_folder_open" (iconDefinitions t)
    = Some {| iconPath := "./default-folder-open.png" |}
  ∧ theme_file t = "_file" ∧ theme_folder t = "_folder"
  ∧ theme_folderExpanded t = "_folder_open"
  ∧ ∃ rest,
      obj_keys (iconDefinitions t)
      = "_file" :: "_folder" :: "_folder_open" :: rest.
Proof.
  intros Hrun.
  apply assembleIconTheme_Returned in Hrun
    as (acc & _ & -> & (_ & Hdefs & Hnd) & _).
  assert (∀ k, String.prefix "img_" k = false → obj_get k acc.1 = None) as Hnone.
  { intros k Hk. destruct (obj_get k acc.1) as [d|] eqn:Hget; [|reflexivity].
    destruct (Hdefs _ _ Hget) as ((src & _ & ->) & _).
    unfold generateIconId in Hk. simpl in Hk.
    destruct (replace_non_alnum src); discriminate Hk. }
  simpl. rewrite !(obj_get_spread _ _ _ Hnd).
  rewrite !Hnone by reflexivity.
  repeat (split; [reflexivity|]).
  destruct (obj_keys_spread_prefix acc.1 default_iconDefinitions) as (rest & ->).
  exists rest. reflexivity.
Qed.

(** The theme of the workspace with one image. *)
Lemma default_definitions_always_present_witness :
  ∃ t w1,
    assembleIconTheme Examples.host default_config Examples.paths
      Examples.one_image = (Returned t, w1)
    ∧ obj_get "_folder" (iconDefinitions t)
      = Some {| iconPath := "./default-folder.png" |}.
Proof.
  eexists _, _. split; [vm_compute; reflexivity|].
  match goal with
  | |- context [iconDefinitions ?t] =>
      apply (default_definitions_always_present Examples.host default_config
               Examples.paths Examples.one_image t _ eq_refl)
  end.
Defined.

(** X9.  When the workspace search rejects, or finds nothing, the cycle
    still assembles a theme: the three default definitions, the default
    [fileExtensions] and an empty [fileNames]; and it renders nothing. *)
Theorem nothing_discovered h cfg paths w t w1 :
  findFiles h (fs w) (glob_of_extensions (getSupportedExtensions cfg))
            exclude_pattern = None
  ∨ findFiles h (fs w) (glob_of_extensions (getSupportedExtensions cfg))
              exclude_pattern = Some [] →
  assembleIconTheme h cfg paths w = (Returned t, w1) →
  iconDefinitions t = default_iconDefinitions
  ∧ fileNames t = []
  ∧ fileExtensions t = default_fileExtensions (getSupportedExtensions cfg)
  ∧ ∀ c, c ∈ calls w1 →
         c ∈ calls w
         ∨ match c with
           | FindFiles _ _ | MkdirSync _ => True
           | _ => False
           end.
Proof.
  intros Hfind Hrun.
  assert (discovered h cfg (fs w) = []) as Hd.
  { unfold discovered. destruct Hfind as [-> | ->]; reflexivity. }
  apply assembleIconTheme_Returned in Hrun as (acc & Hc & -> & _).
  rewrite collectIcons_unfold, Hd in Hc.
  set (w0 := called _ id w) in Hc.
  pose proof (ensureOutputDir_run h paths w0) as Hdir.
  assert (acc = ([], [])
          ∧ (w1 = w0
             ∨ w1 = called (MkdirSync (outputIconsDir paths))
                      (insert (outputIconsDir paths) Dir) w0)) as [-> Hw].
  { destruct (bool_decide _).
    - rewrite (bind_returned _ _ _ _ _ Hdir) in Hc.
      injection Hc as <- <-. auto.
    - destruct (mkdirSync_succeeds h (fs w0) (outputIconsDir paths)).
      + rewrite (bind_returned _ _ _ _ _ Hdir) in Hc.
        injection Hc as <- <-. auto.
      + rewrite (bind_thrown _ _ _ _ _ Hdir) in Hc. discriminate. }
  repeat (split; [reflexivity|]).
  intros c Hin. destruct Hw as [-> | ->]; simpl in Hin;
    repeat (apply elem_of_app in Hin as [Hin|Hin]);
    try (left; exact Hin);
    apply list_elem_of_singleton in Hin; subst c; right; exact I.
Qed.

(** The search rejects in a workspace that holds an image. *)
Lemma nothing_discovered_witness :
  ∃ t w1,
    assembleIconTheme Cases.host_rejecting default_config Examples.paths
      Examples.one_image = (Returned t, w1)
    ∧ fileNames t = [].
Proof.
  eexists _, _. split; [vm_compute; reflexivity|].
  match goal with
  | |- fileNames ?t = _ =>
      apply (nothing_discovered Cases.host_rejecting default_config
               Examples.paths Examples.one_image t _ (or_introl eq_refl) eq_refl)
  end.
Defined.

(** X10.  When no discovered file is itself a thumbnail being written,
    the loop leaves a definition under exactly the identifiers of the files
    it rendered, and a name under exactly their base names ([__proto__]
    apart, which a plain object cannot hold): a file that fails to decode,
    or whose extension is not configured, has no entry of its own. *)
Theorem loop_records_rendered_files h cfg paths l w :
  (∀ src src', src ∈ l → src' ∈ l →
     src ≠ thumbnailPath_of h paths (generateIconId src')) →
  ∃ acc w',
    processImages h cfg paths (getSupportedExtensions cfg) l w
    = (Returned acc, w')
    ∧ (∀ iconId,
         is_Some (obj_get iconId acc.1)
         ↔ ∃ src, src ∈ l ∧ rendered h cfg paths (fs w) src = true
                  ∧ generateIconId src = iconId)
    ∧ (∀ name,
         is_Some (obj_get name acc.2)
         ↔ name ≠ "__proto__"
           ∧ ∃ src, src ∈ l ∧ rendered h cfg paths (fs w) src = true
                    ∧ path_basename h src = name).
Proof.
  intros Hdisj. destruct (processImages_run h cfg paths l w Hdisj) as (w' & Hrun).
  eexists _, w'. split; [exact Hrun|]. split.
  - intros iconId. rewrite fold_defs. simpl.
    destruct (existsb _ l) eqn:He.
    + split; [intros _|eauto]. apply existsb_exists in He as (src & Hin & Hs).
      apply andb_true_iff in Hs as [Hk Hid]. apply String.eqb_eq in Hid.
      exists src. split; [apply list_elem_of_In, Hin | auto].
    + split; [intros [? H]; discriminate H|].
      intros (src & Hin & Hk & Hid). exfalso.
      apply not_true_iff_false in He. apply He, existsb_exists.
      exists src. split; [apply list_elem_of_In, Hin|].
      rewrite Hk, <- Hid, String.eqb_refl. reflexivity.
  - intros name. rewrite fold_names_keys. simpl. split.
    + intros [H|[? H]]; [exact H | discriminate H].
    + intros H. left. exact H.
Qed.

(** A valid image and a file of no bytes: only the first has a name. *)
Lemma loop_records_rendered_files_witness :
  ∃ acc w',
    processImages Examples.host default_config Examples.paths
      (getSupportedExtensions default_config) ["/ws/a.png"; "/ws/b.png"]
      Cases.valid_and_corrupt = (Returned acc, w')
    ∧ is_Some (obj_get "a.png" acc.2)
    ∧ ¬ is_Some (obj_get "b.png" acc.2).
Proof.
  destruct (loop_records_rendered_files Examples.host default_config
              Examples.paths ["/ws/a.png"; "/ws/b.png"] Cases.valid_and_corrupt)
    as (acc & w' & Hrun & _ & Hnames).
  - intros src src' Hs Hs'.
    apply list_elem_of_In in Hs, Hs'. simpl in Hs, Hs'.
    destruct Hs as [<-|[<-|[]]]; destruct Hs' as [<-|[<-|[]]]; discriminate.
  - exists acc, w'. split; [exact Hrun|]. split.
    + apply Hnames. split; [discriminate|]. exists "/ws/a.png".
      split; [apply list_elem_of_here|]. split; vm_compute; reflexivity.
    + intros Hb. apply Hnames in Hb as (_ & src & Hin & Hk & Hbase).
      apply list_elem_of_In in Hin. simpl in Hin.
      destruct Hin as [<-|[<-|[]]]; vm_compute in Hk, Hbase; discriminate.
Defined.

Lemma fold_names_kept h paths keep k v l : ∀ acc,
  obj_get k acc.2 = Some v →
  (∀ x, x ∈ l → keep x = true → path_basename h x ≠ k) →
  obj_get k (fold_left (record_image h paths keep) l acc).2 = Some v.
Proof.
  induction l as [|x l IH]; intros acc Hget Hl; simpl; [exact Hget|].
  apply IH; [|intros y Hy; apply Hl, list_elem_of_further, Hy].
  unfold record_image. destruct (keep x) eqn:Hx; [|exact Hget]. simpl.
  rewrite obj_get_set.
  destruct (String.eqb_spec k (path_basename h x)) as [->|Hne].
  - exfalso. apply (Hl x); [apply list_elem_of_here | exact Hx | reflexivity].
  - rewrite andb_false_r. exact Hget.
Qed.

(** X11.  Of the rendered files that share a base name, the one discovered
    last gives [fileNames] its value. *)
Theorem last_discovered_wins h cfg paths l1 src l2 w :
  (∀ a b, a ∈ (l1 ++ src :: l2)%list → b ∈ (l1 ++ src :: l2)%list →
     a ≠ thumbnailPath_of h paths (generateIconId b)) →
  rendered h cfg paths (fs w) src = true →
  path_basename h src ≠ "__proto__" →
  (∀ x, x ∈ l2 → rendered h cfg paths (fs w) x = true →
        path_basename h x ≠ path_basename h src) →
  ∃ acc w',
    processImages h cfg paths (getSupportedExtensions cfg)
      (l1 ++ src :: l2) w = (Returned acc, w')
    ∧ obj_get (path_basename h src) acc.2 = Some (generateIconId src).
Proof.
  intros Hdisj Hsrc Hproto Hlater.
  destruct (processImages_run h cfg paths _ w Hdisj) as (w' & Hrun).
  eexists _, w'. split; [exact Hrun|].
  rewrite fold_left_app. cbn [fold_left].
  apply fold_names_kept; [|exact Hlater].
  unfold record_image at 1. rewrite Hsrc. simpl.
  rewrite obj_get_set, String.eqb_refl.
  apply String.eqb_neq in Hproto. rewrite Hproto. reflexivity.
Qed.

(** [dir2/x.png] is discovered after [dir1/x.png]. *)
Lemma last_discovered_wins_witness :
  ∃ acc w',
    processImages Examples.host default_config Examples.paths
      (getSupportedExtensions default_config)
      ["/ws/dir1/x.png"; "/ws/dir2/x.png"] Examples.same_name
    = (Returned acc, w')
    ∧ obj_get "x.png" acc.2 = Some "img__ws_dir2_x_png".
Proof.
  apply (last_discovered_wins Examples.host default_config Examples.paths
           ["/ws/dir1/x.png"] "/ws/dir2/x.png" [] Examples.same_name).
  - intros a b Ha Hb. apply list_elem_of_In in Ha, Hb. simpl in Ha, Hb.
    destruct Ha as [<-|[<-|[]]]; destruct Hb as [<-|[<-|[]]]; discriminate.
  - vm_compute. reflexivity.
  - discriminate.
  - intros x Hx. apply elem_of_nil in Hx as [].
Defined.

(** ** The thumbnail of a file *)

Lemma for_of_app {A S} (l1 l2 : list A) (body : A → S → M S) : ∀ s w,
  for_of (l1 ++ l2) body s w = bind (for_of l1 body s) (for_of l2 body) w.
Proof.
  induction l1 as [|x l1 IH]; intros s w; simpl; [reflexivity|].
  unfold bind. destruct (body x s w) as [[s1|e] w1]; [|reflexivity].
  rewrite IH. reflexivity.
Qed.

Section Thumbnail.
Context (h : Host) (cfg : Config) (paths : Paths).

(** The loop changes no path that is not the thumbnail of one of its
    files. *)
Lemma for_of_processImage_frame l : ∀ acc w,
  ∃ acc' w',
    for_of l (processImage h cfg paths (getSupportedExtensions cfg)) acc w
    = (Returned acc', w')
    ∧ ∀ p, (∀ x, x ∈ l → p ≠ thumbnailPath_of h paths (generateIconId x)) →
           fs w' !! p = fs w !! p.
Proof.
  induction l as [|x l IH]; intros acc w; simpl.
  - exists acc, w. split; reflexivity.
  - destruct (processImage_run h cfg paths x acc w) as (w1 & Hrun & Hf & _).
    rewrite (bind_returned _ _ _ _ _ Hrun).
    destruct (IH (record_image h paths (rendered h cfg paths (fs w)) acc x) w1)
      as (acc' & w' & Hrest & Hf').
    exists acc', w'. split; [exact Hrest|]. intros p Hp.
    rewrite Hf' by (intros y Hy; apply Hp, list_elem_of_further, Hy).
    apply Hf, Hp, list_elem_of_here.
Qed.

Lemma processImage_rendered src acc w png :
  supported h cfg src = true →
  sharp_resize_toFile h (fs w !! src) (getIconSize cfg)
    (thumbnailPath_of h paths (generateIconId src)) = Rendered png →
  ∃ acc' w',
    processImage h cfg paths (getSupportedExtensions cfg) src acc w
    = (Returned acc', w')
    ∧ fs w' !! thumbnailPath_of h paths (generateIconId src) = Some (File png).
Proof.
  unfold supported. intros Hs Ho. unfold processImage. rewrite Hs. simpl.
  unfold bind, generateThumbnail. rewrite Ho. simpl.
  eexists _, _. split; [reflexivity|]. simpl. apply lookup_insert_eq.
Qed.
End Thumbnail.

(** X12.  After the loop the thumbnail of a file holds the PNG rendered
    from the file's bytes at the start of the loop, provided the file was
    not overwritten by the thumbnail of a file discovered before it and no
    file discovered after it writes the same thumbnail: each cycle renders
    the thumbnail anew and overwrites the one of the cycle before. *)
Theorem thumbnail_holds_latest_render h cfg paths l1 src l2 w png :
  supported h cfg src = true →
  (∀ x, x ∈ l1 → src ≠ thumbnailPath_of h paths (generateIconId x)) →
  sharp_resize_toFile h (fs w !! src) (getIconSize cfg)
    (thumbnailPath_of h paths (generateIconId src)) = Rendered png →
  (∀ x, x ∈ l2 →
        thumbnailPath_of h paths (generateIconId src)
        ≠ thumbnailPath_of h paths (generateIconId x)) →
  ∃ acc w',
    processImages h cfg paths (getSupportedExtensions cfg)
      (l1 ++ src :: l2) w = (Returned acc, w')
    ∧ fs w' !! thumbnailPath_of h paths (generateIconId src) = Some (File png).
Proof.
  intros Hs Hbefore Ho Hafter. unfold processImages. rewrite for_of_app.
  destruct (for_of_processImage_frame h cfg paths l1 ([], []) w)
    as (acc1 & w1 & Hrun1 & Hf1).
  rewrite (bind_returned _ _ _ _ _ Hrun1). cbn [for_of].
  destruct (processImage_rendered h cfg paths src acc1 w1 png Hs)
    as (acc2 & w2 & Hrun2 & Hpng).
  { rewrite (Hf1 src Hbefore). exact Ho. }
  rewrite (bind_returned _ _ _ _ _ Hrun2).
  destruct (for_of_processImage_frame h cfg paths l2 acc2 w2)
    as (acc3 & w3 & Hrun3 & Hf3).
  exists acc3, w3. split; [exact Hrun3|].
  rewrite (Hf3 _ Hafter). exact Hpng.
Qed.

(** An older thumbnail of [/ws/a.png] is replaced. *)
Lemma thumbnail_holds_latest_render_witness :
  ∃ acc w',
    processImages Examples.host default_config Examples.paths
      (getSupportedExtensions default_config) ["/ws/a.png"]
      Cases.stale_thumbnail = (Returned acc, w')
    ∧ fs Cases.stale_thumbnail !! "/ext/out/icons/img__ws_a_png.png"
      = Some (File "IMG thumbnail of IMG old a")
    ∧ fs w' !! "/ext/out/icons/img__ws_a_png.png"
      = Some (File "IMG thumbnail of IMG new a").
Proof.
  destruct (thumbnail_holds_latest_render Examples.host default_config
              Examples.paths [] "/ws/a.png" [] Cases.stale_thumbnail
              "IMG thumbnail of IMG new a")
    as (acc & w' & Hrun & Hpng).
  - reflexivity.
  - intros x Hx. apply elem_of_nil in Hx as [].
  - reflexivity.
  - intros x Hx. apply elem_of_nil in Hx as [].
  - exists acc, w'. split; [exact Hrun|]. split; [reflexivity | exact Hpng].
Defined.

(** ** The copy without default icons, on examples *)


(** The theme of the workspace with one image. *)
Lemma part000_descriptor_consistent_witness :
  ∃ t w1,
    Part000.assembleIconTheme Examples.host default_config Examples.paths
      Examples.one_image = (Returned t, w1)
    ∧ holds_file (fs w1) "/ext/out/icons/img__ws_a_png.png".
Proof.
  eexists _, _. split; [vm_compute; reflexivity|].
  match goal with
  | |- holds_file (fs ?w1) _ =>
      destruct (part000_descriptor_consistent Examples.host default_config
                  Examples.paths Examples.one_image _ w1 eq_refl)
        as (_ & Hdefs)
  end.
  apply (Hdefs "img__ws_a_png" {| iconPath := "img__ws_a_png.png" |} eq_refl).
Defined.

(** ** Sessions after activation *)

Section Steps.
Context (h : Host) (tie : bool).

Lemma elapse_cases s dt id due :
  timers s = [{| timer_id := id; timer_due := due |}] →
  clock (elapse tie dt s) = (clock s + dt)%N
  ∧ ((timers (elapse tie dt s) = []
      ∧ started (elapse tie dt s)
        = (started s ++ [N.max (clock s) due])%list)
     ∨ (timers (elapse tie dt s) = timers s
        ∧ started (elapse tie dt s) = started s)).
Proof.
  intros Ht. unfold elapse. rewrite Ht. cbn [List.filter].
  destruct (due_by tie (clock s + dt) {| timer_id := id; timer_due := due |});
    cbn [fold_left].
  - split; [reflexivity|]. left. unfold fire. simpl. rewrite Ht. simpl.
    rewrite Nat.eqb_refl. split; reflexivity.
  - split; [reflexivity|]. right. simpl. rewrite Ht. split; reflexivity.
Qed.

(** What one event does to the queue of timeouts and to the calls
    started. *)
Lemma handle_step e s :
  timers_tidy s →
  (clock s ≤ clock (handle h tie e s))%N
  ∧ ((timers (handle h tie e s) = timers s
      ∧ started (handle h tie e s) = started s)
     ∨ (e = RefreshCommand
        ∧ timers (handle h tie e s) = timers s
        ∧ started (handle h tie e s) = (started s ++ [clock s])%list)
     ∨ (∃ tm t,
          timers s = [tm] ∧ timers (handle h tie e s) = []
          ∧ started (handle h tie e s) = (started s ++ [t])%list)
     ∨ (triggers h (watchPattern s) e = true
        ∧ timers (handle h tie e s)
          = [{| timer_id := next_timer s;
                timer_due := clock (handle h tie e s) + quiet_interval |}]
        ∧ started (handle h tie e s) = started s)).
Proof.
  intros Hs.
  assert (∀ e', notifies h s e' = true →
            triggers h (watchPattern s) e' = true) as Hnt.
  { intros [dt|p|p|p|[c|]| | | |]; simpl; trivial. }
  destruct (notifies h s e) eqn:Hn.
  - destruct (notify_spec h tie s e Hs Hn) as (_ & Ht & _ & Hc & Hst & _).
    rewrite Hc. split; [lia|]. right; right; right.
    split; [apply Hnt, Hn|]. split; [exact Ht | exact Hst].
  - assert (∀ s', s' = s →
              (clock s ≤ clock s')%N
              ∧ ((timers s' = timers s ∧ started s' = started s)
                 ∨ (e = RefreshCommand ∧ timers s' = timers s
                    ∧ started s' = (started s ++ [clock s])%list)
                 ∨ (∃ tm t, timers s = [tm] ∧ timers s' = []
                            ∧ started s' = (started s ++ [t])%list)
                 ∨ (triggers h (watchPattern s) e = true
                    ∧ timers s'
                      = [{| timer_id := next_timer s;
                            timer_due := clock s' + quiet_interval |}]
                    ∧ started s' = started s))) as Hsame.
    { intros s' ->. split; [lia|]. left. split; reflexivity. }
    destruct e as [dt|p|p|p|[c|]| | | |]; simpl in Hn; try discriminate;
      cbn [handle].
    + destruct Hs as [Hnil|(id & due & Ht & _ & _)].
      * destruct (elapse_idle tie s dt Hnil) as (_ & Hc & Hst & _).
        rewrite Hc. split; [lia|]. left. split; [|exact Hst].
        unfold elapse. rewrite Hnil. simpl. exact Hnil.
      * destruct (elapse_cases s dt id due Ht) as (Hc & [[Ht' Hst]|[Ht' Hst]]);
          rewrite Hc; (split; [lia|]).
        -- right; right; left. eauto.
        -- left. auto.
    + apply Hsame. unfold on_file_event. rewrite Hn. reflexivity.
    + apply Hsame. unfold on_file_event. rewrite Hn. reflexivity.
    + apply Hsame. unfold on_file_event. rewrite Hn. reflexivity.
    + apply Hsame. reflexivity.
    + split; [simpl; lia|]. right; left. repeat split; reflexivity.
    + split; [simpl; lia|]. left. split; reflexivity.
    + split; [simpl; lia|]. left. split; reflexivity.
Qed.

Lemma run_cons e es s :
  run h tie (e :: es) s = run h tie es (handle h tie e s).
Proof. reflexivity. Qed.

(** Started calls and pending timeouts together grow by at most one per
    triggering event. *)
Lemma run_bound es : ∀ s,
  timers_tidy s →
  (List.length (started (run h tie es s))
   + List.length (timers (run h tie es s))
   ≤ List.length (started s) + List.length (timers s)
     + count_triggers h (watchPattern s) es)%nat.
Proof.
  induction es as [|e es IH]; intros s Hs.
  - simpl. unfold count_triggers. simpl. lia.
  - rewrite run_cons.
    pose proof (IH _ (handle_tidy h tie e s Hs)) as Hrest.
    rewrite handle_watchPattern in Hrest.
    unfold count_triggers in *. cbn [List.filter].
    set (n := List.length (List.filter (triggers h (watchPattern s)) es)) in *.
    destruct (handle_step e s Hs) as (_ & Hcase).
    destruct Hcase as [[Ht Hst]|[(He & Ht & Hst)|[(tm & t & Ht0 & Ht & Hst)
                                                  |(Htr & Ht & Hst)]]];
      rewrite Ht, Hst in Hrest.
    + destruct (triggers h (watchPattern s) e); simpl; lia.
    + subst e. rewrite length_app in Hrest. simpl in *. lia.
    + rewrite Ht0. rewrite length_app in Hrest.
      destruct (triggers h (watchPattern s) e); simpl in *; lia.
    + rewrite Htr. simpl in *. lia.
Qed.

(** A pending timeout is never due later than one quiet interval from
    now. *)
Lemma run_due_bound es : ∀ s,
  timers_tidy s →
  (∀ tm, tm ∈ timers s → (timer_due tm ≤ clock s + quiet_interval)%N) →
  ∀ tm, tm ∈ timers (run h tie es s) →
        (timer_due tm ≤ clock (run h tie es s) + quiet_interval)%N.
Proof.
  induction es as [|e es IH]; intros s Hs Hb; [exact Hb|].
  rewrite run_cons. apply IH; [apply handle_tidy, Hs|].
  intros tm Htm.
  destruct (handle_step e s Hs) as
    (Hc & [[Ht _]|[(_ & Ht & _)|[(tm0 & t & _ & Ht & _)|(_ & Ht & _)]]]);
    rewrite Ht in Htm.
  - apply Hb in Htm. lia.
  - apply Hb in Htm. lia.
  - apply elem_of_nil in Htm as [].
  - apply list_elem_of_singleton in Htm. subst tm. simpl. lia.
Qed.
End Steps.

(** X15.  At every moment after activation at most one timeout is pending;
    it is the one [regenerateTimer] holds, and it is due within the next
    500 ms. *)
Theorem at_most_one_timeout_pending h tie cfg es :
  let s := run h tie es (activate cfg) in
  (List.length (timers s) ≤ 1)%nat
  ∧ ∀ tm, tm ∈ timers s →
          regenerateTimer s = Some (timer_id tm)
          ∧ (clock s ≤ timer_due tm ≤ clock s + quiet_interval)%N.
Proof.
  intros s.
  assert (timers_tidy (activate cfg)) as H0 by (left; reflexivity).
  destruct (run_invariants h tie es (activate cfg) H0) as (Htidy & _).
  fold s in Htidy.
  assert (∀ tm, tm ∈ timers s → (timer_due tm ≤ clock s + quiet_interval)%N)
    as Hdue.
  { apply run_due_bound; [exact H0|]. intros tm Htm. simpl in Htm.
    apply elem_of_nil in Htm as []. }
  destruct Htidy as [Hnil|(id & due & Ht & Hr & Hc)].
  - rewrite Hnil. split; [simpl; lia|]. intros tm Htm.
    apply elem_of_nil in Htm as [].
  - split; [rewrite Ht; simpl; lia|]. intros tm Htm.
    specialize (Hdue tm Htm). rewrite Ht in Htm.
    apply list_elem_of_singleton in Htm. subst tm. simpl in *.
    split; [exact Hr | lia].
Qed.

(** X16.  The calls of [generateIconTheme] made after activation never
    outnumber the events that ask for one (refresh commands, watched file
    events, changes of the extension's configuration or of the workspace
    folders): no cycle starts on its own, and debouncing only ever merges
    calls. *)
Theorem calls_bounded_by_triggers h tie cfg es :
  (List.length (started (run h tie es (activate cfg)))
   ≤ 1 + count_triggers h (glob_of_extensions (getSupportedExtensions cfg)) es)%nat.
Proof.
  pose proof (run_bound h tie es (activate cfg)) as Hb.
  simpl in Hb. specialize (Hb (or_introl eq_refl)). lia.
Qed.

(** X17.  The refresh command starts a cycle at once and leaves the pending
    timeout where it is: the debounced regeneration still runs when it
    falls due, so a refresh during the quiet interval gives two cycles. *)
Theorem refresh_keeps_pending_regeneration h tie s id due dt :
  timers s = [{| timer_id := id; timer_due := due |}] →
  regenerateTimer s = Some id →
  (clock s ≤ due)%N → (due < clock s + dt)%N →
  timers (handle h tie RefreshCommand s) = timers s
  ∧ started (run h tie [RefreshCommand; Elapse dt] s)
    = (started s ++ [clock s; due])%list
  ∧ running (run h tie [RefreshCommand; Elapse dt] s) = S (S (running s)).
Proof.
  intros Ht Hr Hc Hd. split; [reflexivity|].
  change (run h tie [RefreshCommand; Elapse dt] s)
    with (elapse tie dt (call_generateIconTheme s)).
  unfold elapse. simpl. rewrite Ht. simpl. unfold due_by. simpl.
  assert ((if tie then (due <=? clock s + dt)%N else (due <? clock s + dt)%N)
          = true) as ->.
  { destruct tie; [apply N.leb_le | apply N.ltb_lt]; lia. }
  simpl. rewrite N.max_r by exact Hc. rewrite <- app_assoc. split; reflexivity.
Qed.

(** A notification at 0 ms, a refresh at once, then 501 ms. *)
Lemma refresh_keeps_pending_regeneration_witness :
  started (run Examples.host true [RefreshCommand; Elapse 501]
             Cases.pending_session)
  = [0%N; 0%N; 500%N].
Proof.
  apply (refresh_keeps_pending_regeneration Examples.host true
           Cases.pending_session 0 500 501); [reflexivity .. | | ];
    vm_compute; congruence.
Defined.

(** X18.  [deactivate] clears the pending timeout and ends the watching:
    after it, no passing of time starts a cycle. *)
Theorem deactivate_cancels_pending tie s dt :
  timers_tidy s →
  timers (remains (deactivate s)) = []
  ∧ watching (deactivate s) = None
  ∧ started (elapse tie dt (remains (deactivate s))) = started s
  ∧ running (elapse tie dt (remains (deactivate s))) = running s.
Proof.
  intros [Hnil|(id & due & Ht & Hr & _)].
  - assert (timers (remains (deactivate s)) = []) as Ht.
    { unfold deactivate. simpl. destruct (regenerateTimer s); simpl;
        rewrite Hnil; reflexivity. }
    split; [exact Ht|]. split; [reflexivity|].
    unfold elapse. rewrite Ht. simpl. unfold deactivate. simpl.
    destruct (regenerateTimer s); split; reflexivity.
  - assert (remains (deactivate s) = clearTimeout id s) as ->.
    { unfold deactivate. simpl. rewrite Hr. reflexivity. }
    assert (timers (clearTimeout id s) = []) as Ht'.
    { unfold clearTimeout. simpl. rewrite Ht. simpl. rewrite Nat.eqb_refl.
      reflexivity. }
    split; [exact Ht'|]. split; [reflexivity|].
    unfold elapse. rewrite Ht'. simpl. split; reflexivity.
Qed.

(** A regeneration is pending when the extension is deactivated. *)
Lemma deactivate_cancels_pending_witness :
  timers Cases.pending_session
  = [{| timer_id := 0; timer_due := 500 |}]
  ∧ started (elapse true 10000 (remains (deactivate Cases.pending_session)))
    = [0%N].
Proof.
  split; [reflexivity|].
  apply (deactivate_cancels_pending true Cases.pending_session 10000).
  right. exists 0%nat, 500%N. repeat split. vm_compute. discriminate.
Defined.

(** ** Activation of the theme *)




(** ** Files of extensions that are not configured *)

(** X20.  Files whose lower-cased extension is not configured leave no
    trace: the loop over them renders nothing, changes nothing and records
    nothing, whatever the search returned them for. *)
Theorem unsupported_files_are_skipped h cfg paths l w :
  (∀ src, src ∈ l → supported h cfg src = false) →
  processImages h cfg paths (getSupportedExtensions cfg) l w
  = (Returned ([], []), w).
Proof.
  unfold processImages. generalize (@nil (string * IconDef), @nil (string * string)).
  induction l as [|x l IH]; intros acc Hl; simpl; [reflexivity|].
  unfold processImage at 1. unfold supported in Hl.
  rewrite (Hl x) by apply list_elem_of_here. simpl.
  unfold bind at 1. simpl. apply IH.
  intros src Hsrc. apply Hl, list_elem_of_further, Hsrc.
Qed.

(** Only [svg] is configured and the search returns a [png] file. *)
Lemma unsupported_files_are_skipped_witness :
  processImages Examples.host (Examples.with_extensions ["svg"])
    Examples.paths (getSupportedExtensions (Examples.with_extensions ["svg"]))
    ["/ws/a.png"] Examples.one_image
  = (Returned ([], []), Examples.one_image).
Proof.
  apply unsupported_files_are_skipped.
  intros src Hsrc. apply list_elem_of_singleton in Hsrc. subst src.
  reflexivity.
Defined.
